(** * Request sanitisation layer of open-lovable: [src/lib/security.ts]

    A shallow embedding of the validators and of the in-memory rate limiter,
    followed by the properties the specification states about them.

    Conventions of the embedding:
    - a JavaScript string is the list of its UTF-16 code units ([list N]);
    - a regular expression literal is a value of [regex], run by the
      backtracking matcher [rmatch]; [regex_test] is [RegExp.prototype.test]
      for a pattern without flags (or with [i], folded into the classes);
    - [Date.now()] is an explicit argument and the module-level
      [rateLimitStore] an explicit [gmap] threaded through [checkRateLimit];
    - numbers that count requests or milliseconds are integers ([Z]). *)

From Stdlib Require Import NArith ZArith String Ascii.
From stdpp Require Import base option list gmap.

Set Warnings "-register-all".

Local Open Scope N_scope.

(** ** Strings *)

Abbreviation jsstring := (list N).

(** A source literal, one code unit per ASCII character. *)
Definition str (s : string) : jsstring :=
  List.map N_of_ascii (list_ascii_of_string s).

(** ** JavaScript values reaching the validators at run time

    [VOther text] is any value of another kind (a number, a plain object, a
    symbol) whose [String] conversion returns [text]. *)

Inductive JSValue :=
| VUndefined
| VNull
| VBool (b : bool)
| VStr (s : jsstring)
| VArr (items : list JSValue)
| VOther (text : jsstring).

(** ** Character classes *)

Definition in_range (lo hi c : N) : bool := (lo <=? c) && (c <=? hi).

(** WhiteSpace and LineTerminator code units: what [String.prototype.trim]
    strips and what [\s] matches. *)
Definition is_space (c : N) : bool :=
  in_range 9 13 c || (c =? 32) || (c =? 160) || (c =? 5760)
  || in_range 8192 8202 c || (c =? 8232) || (c =? 8233) || (c =? 8239)
  || (c =? 8287) || (c =? 12288) || (c =? 65279).

Definition is_digit (c : N) : bool := in_range 48 57 c.
Definition is_lower (c : N) : bool := in_range 97 122 c.
Definition is_upper (c : N) : bool := in_range 65 90 c.

(** [\w] *)
Definition is_word (c : N) : bool :=
  is_lower c || is_upper c || is_digit c || (c =? 95).

(** Membership in a bracket class given by its literal members. *)
Definition one_of (members : string) (c : N) : bool :=
  existsb (N.eqb c) (str members).

(** ** [trim], [toLowerCase], [startsWith], [includes] *)

Fixpoint drop_spaces (s : jsstring) : jsstring :=
  match s with
  | c :: s' => if is_space c then drop_spaces s' else s
  | [] => []
  end.

Definition trim (s : jsstring) : jsstring :=
  rev (drop_spaces (rev (drop_spaces s))).

(** Hostnames are ASCII; only the ASCII letters are folded. *)
Definition lower_unit (c : N) : N := if is_upper c then c + 32 else c.
Definition toLowerCase (s : jsstring) : jsstring := List.map lower_unit s.

Fixpoint startsWith (s p : jsstring) {struct p} : bool :=
  match p, s with
  | [], _ => true
  | a :: p', c :: s' => (c =? a) && startsWith s' p'
  | _ :: _, [] => false
  end.

Fixpoint includes (s p : jsstring) : bool :=
  startsWith s p ||
  match s with
  | _ :: s' => includes s' p
  | [] => false
  end.

(** ** Regular expressions *)

Inductive regex :=
| Eps
| Class (p : N → bool)
| Cat (r1 r2 : regex)
| Or (r1 r2 : regex)
| Opt (r : regex)
| Rep (p : N → bool) (lo : nat) (hi : option nat)
| Bol
| Eol
| WordB.

(** Whether the code unit next to the current position is a word character;
    off either end of the input it is not. *)
Definition word_at (s : jsstring) : bool :=
  match s with
  | c :: _ => is_word c
  | [] => false
  end.

Definition more_allowed (hi : option nat) : bool :=
  match hi with
  | Some 0%nat => false
  | _ => true
  end.

Definition one_less (hi : option nat) : option nat :=
  match hi with
  | Some n => Some (Nat.pred n)
  | None => None
  end.

Definition is_zero (n : nat) : bool :=
  match n with
  | O => true
  | S _ => false
  end.

Definition is_nil (s : jsstring) : bool :=
  match s with
  | [] => true
  | _ :: _ => false
  end.

(** [rep_match p lo hi before s k]: a greedy class repetition [p{lo,hi}]
    ([hi = None] for [*] and [+]); [before] is the consumed input, nearest
    unit first, [s] what is left, [k] the continuation tried on each
    backtrack. *)
Fixpoint rep_match (p : N → bool) (lo : nat) (hi : option nat)
    (before s : jsstring) (k : jsstring → jsstring → bool) : bool :=
  match s with
  | c :: s' =>
      (more_allowed hi && p c
       && rep_match p (Nat.pred lo) (one_less hi) (c :: before) s' k)
      || (is_zero lo && k before s)
  | [] => is_zero lo && k before []
  end.

Fixpoint rmatch (r : regex) (before s : jsstring)
    (k : jsstring → jsstring → bool) : bool :=
  match r with
  | Eps => k before s
  | Class p =>
      match s with
      | c :: s' => p c && k (c :: before) s'
      | [] => false
      end
  | Cat r1 r2 => rmatch r1 before s (λ b' s', rmatch r2 b' s' k)
  | Or r1 r2 => rmatch r1 before s k || rmatch r2 before s k
  | Opt r1 => rmatch r1 before s k || k before s
  | Rep p lo hi => rep_match p lo hi before s k
  | Bol => is_nil before && k before s
  | Eol => is_nil s && k before s
  | WordB => xorb (word_at before) (word_at s) && k before s
  end.

(** Try the pattern at every start position, left to right. *)
Fixpoint search (r : regex) (before s : jsstring) : bool :=
  rmatch r before s (λ _ _, true) ||
  match s with
  | c :: s' => search r (c :: before) s'
  | [] => false
  end.

Definition regex_test (r : regex) (s : jsstring) : bool := search r [] s.

(** A literal run of characters, and the common shapes built from it. *)
Fixpoint lit_units (l : jsstring) : regex :=
  match l with
  | [] => Eps
  | c :: l' => Cat (Class (N.eqb c)) (lit_units l')
  end.

Definition lit (s : string) : regex := lit_units (str s).

(** [\bword\b] *)
Definition whole_word (s : string) : regex := Cat WordB (Cat (lit s) WordB).

Fixpoint seq (rs : list regex) : regex :=
  match rs with
  | [] => Eps
  | r :: rs' => Cat r (seq rs')
  end.

(** ** Command validator *)

Definition ALLOWED_COMMANDS : list jsstring :=
  List.map str
    ["npm"; "npx"; "node"; "cat"; "ls"; "pwd"; "mkdir"; "find"; "echo"; "cp";
     "mv"; "rm"; "head"; "tail"; "wc"; "grep"; "which"; "env"; "vite"; "tsc";
     "eslint"; "prettier"]%string.

(** Each deny-list entry with its [source] text, which the error reports. *)
Definition BLOCKED_PATTERNS : list (string * regex) :=
  [ ("[;&|`$]", Class (one_of ";&|`$"));
    ("\.\.\/", lit "../");
    ("\/etc\/", lit "/etc/");
    ("\/proc\/", lit "/proc/");
    ("\/sys\/", lit "/sys/");
    ("\bsudo\b", whole_word "sudo");
    ("\bcurl\b", whole_word "curl");
    ("\bwget\b", whole_word "wget");
    ("\bchmod\b", whole_word "chmod");
    ("\bchown\b", whole_word "chown");
    ("\bdd\b", whole_word "dd");
    ("\bmkfs\b", whole_word "mkfs");
    ("\bkill\b", whole_word "kill");
    ("\bpkill\b", whole_word "pkill");
    ("\breboot\b", whole_word "reboot");
    ("\bshutdown\b", whole_word "shutdown") ]%string.

(** The [for ... of] loop over a pattern table: the first entry that matches. *)
Fixpoint first_match {A} (table : list (A * regex)) (s : jsstring) : option A :=
  match table with
  | [] => None
  | (a, r) :: rest => if regex_test r s then Some a else first_match rest s
  end.

(** [s.split(/\s+/)]: [cur] is the token being read, last unit first, and
    [in_gap] says that the previous unit was white space. *)
Fixpoint split_go (in_gap : bool) (cur s : jsstring) : list jsstring :=
  match s with
  | [] => [rev cur]
  | c :: s' =>
      if is_space c
      then if in_gap then split_go true cur s'
           else rev cur :: split_go true [] s'
      else split_go false (c :: cur) s'
  end.

Definition split_spaces (s : jsstring) : list jsstring := split_go false [] s.

Inductive CommandError :=
| CommandRequired
| CommandEmpty
| CommandTooLong
| CommandBlocked (source : string)
| CommandNotAllowed (cmd : jsstring).

Inductive CommandResult :=
| CommandOk (cmd : jsstring) (args : list jsstring)
| CommandRejected (e : CommandError).

Definition validateCommandString (command : jsstring) : CommandResult :=
  let trimmed := trim command in
  if is_nil trimmed then CommandRejected CommandEmpty
  else if (2000 <? length trimmed)%nat then CommandRejected CommandTooLong
  else match first_match BLOCKED_PATTERNS trimmed with
       | Some source => CommandRejected (CommandBlocked source)
       | None =>
           match split_spaces trimmed with
           | cmd :: args =>
               if bool_decide (cmd ∈ ALLOWED_COMMANDS) then CommandOk cmd args
               else CommandRejected (CommandNotAllowed cmd)
           | [] => CommandRejected (CommandNotAllowed (str "undefined"))
           end
       end.

(** [!command || typeof command !== 'string'] lets through the non-empty
    strings only. *)
Definition validateCommand (command : JSValue) : CommandResult :=
  match command with
  | VStr ((_ :: _) as s) => validateCommandString s
  | _ => CommandRejected CommandRequired
  end.

(** ** URL validator *)

(** The two fields of a parsed [URL] that the validator reads. *)
Record URL := { protocol : jsstring; hostname : jsstring }.

Definition BLOCKED_HOSTNAMES : list jsstring :=
  List.map str
    ["localhost"; "127.0.0.1"; "0.0.0.0"; "::1"; "[::1]";
     "metadata.google.internal"; "169.254.169.254"]%string.

(** A class under the [i] flag: a unit matches when it or its other ASCII
    case does. *)
Definition ignore_case (p : N → bool) (c : N) : bool :=
  p c || (is_upper c && p (c + 32)) || (is_lower c && p (c - 32)).

Definition digits_1_3 : regex := Rep is_digit 1 (Some 3%nat).

Definition hex_lower (c : N) : bool := is_digit c || in_range 97 102 c.

Inductive HostRule :=
| Net10
| Net172
| Net192
| Ipv6Ula
| Ipv6LinkLocal.

Definition BLOCKED_HOSTNAME_PATTERNS : list (HostRule * regex) :=
  [ (Net10,
     seq [Bol; lit "10."; digits_1_3; lit "."; digits_1_3; lit ".";
          digits_1_3; Eol]);
    (Net172,
     seq [Bol; lit "172.";
          Or (Cat (lit "1") (Class (in_range 54 57)))
             (Or (Cat (lit "2") (Class is_digit))
                 (Cat (lit "3") (Class (one_of "01"))));
          lit "."; digits_1_3; lit "."; digits_1_3; Eol]);
    (Net192,
     seq [Bol; lit "192.168."; digits_1_3; lit "."; digits_1_3; Eol]);
    (Ipv6Ula,
     seq [Bol; Class (ignore_case (one_of "f")); Class (ignore_case (one_of "c"));
          Rep (ignore_case hex_lower) 2 (Some 2%nat);
          Class (ignore_case (one_of ":"))]);
    (Ipv6LinkLocal,
     seq [Bol; Class (ignore_case (one_of "f")); Class (ignore_case (one_of "e"));
          Class (ignore_case (one_of "8")); Class (ignore_case (one_of "0"));
          Class (ignore_case (one_of ":"))]) ].

Inductive UrlError :=
| InvalidUrlFormat
| InvalidProtocol (scheme : jsstring)
| InternalHost
| PrivateNetwork.

Inductive UrlResult :=
| UrlOk (url : URL)
| UrlRejected (e : UrlError).

(** [new URL(input)] is the platform's parser: [parseURL] stands for it, with
    [None] for the [TypeError] that the [catch] turns into a rejection. *)
Definition validateUrl (parseURL : jsstring → option URL) (input : jsstring)
    : UrlResult :=
  match parseURL input with
  | None => UrlRejected InvalidUrlFormat
  | Some url =>
      if negb (bool_decide (protocol url ∈ [str "http:"; str "https:"]))
      then UrlRejected (InvalidProtocol (protocol url))
      else
        let hostname := toLowerCase (hostname url) in
        if bool_decide (hostname ∈ BLOCKED_HOSTNAMES)
        then UrlRejected InternalHost
        else match first_match BLOCKED_HOSTNAME_PATTERNS hostname with
             | Some _ => UrlRejected PrivateNetwork
             | None => UrlOk url
             end
  end.

(** ** Package names *)

Definition pkg_first (c : N) : bool :=
  is_lower c || is_digit c || one_of "-~" c.

Definition pkg_rest (c : N) : bool :=
  is_lower c || is_digit c || one_of "-._~" c.

Definition pkg_version (c : N) : bool :=
  is_word c || one_of ".^~>=<|-" c.

Definition VALID_PACKAGE_PATTERN : regex :=
  seq [Bol;
       Opt (seq [lit "@"; Class pkg_first; Rep pkg_rest 0 None; lit "/"]);
       Class pkg_first; Rep pkg_rest 0 None;
       Opt (seq [lit "@"; Rep pkg_version 1 None]);
       Eol].

Definition validatePackageString (name : jsstring) : bool :=
  let trimmed := trim name in
  if is_nil trimmed || (214 <? length trimmed)%nat then false
  else regex_test VALID_PACKAGE_PATTERN trimmed.

Definition validatePackageName (name : JSValue) : bool :=
  match name with
  | VStr ((_ :: _) as s) => validatePackageString s
  | _ => false
  end.

(** [String(v)] for the values of [JSValue]; inside an array [null] and
    [undefined] print as the empty string and the items are joined by commas. *)
Fixpoint toString (v : JSValue) : jsstring :=
  match v with
  | VUndefined => str "undefined"
  | VNull => str "null"
  | VBool true => str "true"
  | VBool false => str "false"
  | VStr s => s
  | VOther text => text
  | VArr items =>
      let item x :=
        match x with
        | VUndefined | VNull => []
        | _ => toString x
        end in
      (fix join (l : list JSValue) : jsstring :=
         match l with
         | [] => []
         | [x] => item x
         | x :: l' => item x ++ str "," ++ join l'
         end) items
  end.

Record PackageLists := { valid : list jsstring; invalid : list jsstring }.

(** The three locals of the loop in [sanitizePackageList]. *)
Record SanitizeState := {
  st_valid : list jsstring;
  st_invalid : list jsstring;
  st_seen : list jsstring
}.

(** One iteration of the [for ... of] body. *)
Definition sanitize_step (st : SanitizeState) (pkg : JSValue) : SanitizeState :=
  match pkg with
  | VStr s =>
      let trimmed := trim s in
      if bool_decide (trimmed ∈ st_seen st) then st
      else if validatePackageName (VStr trimmed)
      then {| st_valid := st_valid st ++ [trimmed];
              st_invalid := st_invalid st;
              st_seen := trimmed :: st_seen st |}
      else {| st_valid := st_valid st;
              st_invalid := st_invalid st ++ [trimmed];
              st_seen := trimmed :: st_seen st |}
  | _ =>
      {| st_valid := st_valid st;
         st_invalid := st_invalid st ++ [toString pkg];
         st_seen := st_seen st |}
  end.

Definition sanitizePackageList (packages : JSValue) : PackageLists :=
  match packages with
  | VArr items =>
      let st := fold_left sanitize_step items
                  {| st_valid := []; st_invalid := []; st_seen := [] |} in
      {| valid := st_valid st; invalid := st_invalid st |}
  | _ => {| valid := []; invalid := [] |}
  end.

(** ** Safe error responses *)

(** What an [Error] instance carries. *)
Record ErrorObject := {
  err_name : jsstring;
  err_message : jsstring;
  err_stack : jsstring
}.

(** A caught value: an instance of [Error], or anything else. *)
Inductive Caught :=
| CaughtError (e : ErrorObject)
| CaughtOther (v : JSValue).

Record SafeError := { error : jsstring; context : jsstring }.

Definition GENERIC_ERROR : jsstring := str "An unexpected error occurred.".

Definition safeErrorResponse (caught : Caught) (ctx : jsstring) : SafeError :=
  match caught with
  | CaughtError e => {| error := err_message e; context := ctx |}
  | CaughtOther _ => {| error := GENERIC_ERROR; context := ctx |}
  end.

(** ** Rate limiter *)

Record RateDecision := { allowed : bool; remaining : Z; resetMs : Z }.

(** The timestamps recorded for [key]; an entry is created empty on first
    use. *)
Definition bucket (store : gmap (list N) (list Z)) (key : jsstring) : list Z :=
  default [] (store !! key).

(** [entry.timestamps.filter((t) => now - t < windowMs)] *)
Definition prune (now windowMs : Z) (timestamps : list Z) : list Z :=
  List.filter (λ t, (now - t <? windowMs)%Z) timestamps.

(** [timestamps[0] || now]: an empty array and a first element [0] both give
    [now]. *)
Definition oldest_or (now : Z) (timestamps : list Z) : Z :=
  match timestamps with
  | t :: _ => if (t =? 0)%Z then now else t
  | [] => now
  end.

Definition checkRateLimit (key : jsstring) (maxRequests windowMs now : Z)
    (store : gmap (list N) (list Z)) : RateDecision * gmap (list N) (list Z) :=
  let timestamps := prune now windowMs (bucket store key) in
  let remaining := Z.max 0 (maxRequests - Z.of_nat (length timestamps)) in
  let oldestInWindow := oldest_or now timestamps in
  let resetMs := (oldestInWindow + windowMs - now)%Z in
  if (maxRequests <=? Z.of_nat (length timestamps))%Z
  then ({| allowed := false; remaining := 0; resetMs := resetMs |},
        <[key := timestamps]> store)
  else ({| allowed := true; remaining := remaining - 1; resetMs := resetMs |},
        <[key := timestamps ++ [now]]> store).

(** The [setInterval] callback: every bucket is pruned to the last 300000
    milliseconds and an emptied bucket is deleted. *)
Definition sweep (now : Z) (store : gmap (list N) (list Z))
    : gmap (list N) (list Z) :=
  omap (λ timestamps,
          match prune now 300000 timestamps with
          | [] => None
          | kept => Some kept
          end) store.

(** ** Sandbox paths *)

Definition DEFAULT_BASE : jsstring := str "/home/user/app".
Definition VERCEL_ROOT : jsstring := str "/vercel/sandbox".

Inductive PathError :=
| PathRequired
| PathTraversal
| PathNullByte
| PathOutside.

Inductive PathResult :=
| PathOk (normalizedPath : jsstring)
| PathRejected (e : PathError).

Definition fullPath (path allowedBase : jsstring) : jsstring :=
  if startsWith path (str "/") then path else allowedBase ++ str "/" ++ path.

Definition validateSandboxPathString (path allowedBase : jsstring) : PathResult :=
  if includes path (str "..") then PathRejected PathTraversal
  else if includes path [0] then PathRejected PathNullByte
  else
    let full := fullPath path allowedBase in
    if negb (startsWith full allowedBase) && negb (startsWith full VERCEL_ROOT)
    then PathRejected PathOutside
    else PathOk full.

Definition validateSandboxPath (path : JSValue) (allowedBase : jsstring)
    : PathResult :=
  match path with
  | VStr ((_ :: _) as p) => validateSandboxPathString p allowedBase
  | _ => PathRejected PathRequired
  end.

(** ** Vocabulary of the specification *)

(** [p] occurs somewhere in [s] as a contiguous run. *)
Definition occurs_in (p s : jsstring) : Prop := ∃ a b, s = a ++ p ++ b.

(** [p] lies in the directory [base]: it is [base] or continues it after a
    separator. *)
Definition inside_dir (base p : jsstring) : Prop :=
  p = base ∨ (base ++ str "/") `prefix_of` p.

(** The candidate absolute path of the path validator, in the words of the
    specification: an input that is not absolute is joined to the base. *)
Definition candidate (path base : jsstring) : jsstring :=
  match path with
  | 47 :: _ => path
  | _ => base ++ [47] ++ path
  end.

(** The path rule as the specification words it, for one input and base:
    traversal tokens and null bytes reject; otherwise the candidate is accepted
    exactly when one of the two roots is a prefix of it, and rejected as
    outside the sandbox when none is. *)
Definition path_rule (path base : jsstring) : Prop :=
  (occurs_in (str "..") path ∨ occurs_in [0] path →
     ∃ e, validateSandboxPath (VStr path) base = PathRejected e) ∧
  (¬ occurs_in (str "..") path → ¬ occurs_in [0] path →
     (base `prefix_of` candidate path base
      ∨ VERCEL_ROOT `prefix_of` candidate path base →
        validateSandboxPath (VStr path) base = PathOk (candidate path base)) ∧
     (¬ (base `prefix_of` candidate path base
         ∨ VERCEL_ROOT `prefix_of` candidate path base) →
        validateSandboxPath (VStr path) base = PathRejected PathOutside)).

(** The human-readable message a caught value carries: that of an [Error]
    instance. *)
Definition message_of (caught : Caught) : option jsstring :=
  match caught with
  | CaughtError e => Some (err_message e)
  | CaughtOther _ => None
  end.

(** An entry of a package array as the batch validator sees it: a string, by
    its trimmed form, or a value of another type, by its [String] form. *)
Inductive entry :=
| Name (name : jsstring)
| Junk (text : jsstring).

Definition to_entry (v : JSValue) : entry :=
  match v with
  | VStr s => Name (trim s)
  | _ => Junk (toString v)
  end.

Definition other_than (t : jsstring) (e : entry) : Prop :=
  match e with
  | Name t' => t' ≠ t
  | Junk _ => True
  end.

#[local] Instance other_than_dec t e : Decision (other_than t e).
Proof. destruct e; simpl; apply _. Defined.

(** Every name keeps its first occurrence only; the other entries all stay. *)
Fixpoint first_seen (es : list entry) : list entry :=
  match es with
  | [] => []
  | Name t :: es' => Name t :: filter (other_than t) (first_seen es')
  | Junk x :: es' => Junk x :: first_seen es'
  end.

(** The entries that the loop still classifies once the names in [seen] were
    met. *)
Definition unseen (seen : list jsstring) (e : entry) : Prop :=
  match e with
  | Name t => t ∉ seen
  | Junk _ => True
  end.

#[local] Instance unseen_dec seen e : Decision (unseen seen e).
Proof. destruct e; simpl; apply _. Defined.

Definition accepted_name (e : entry) : option jsstring :=
  match e with
  | Name t => if validatePackageName (VStr t) then Some t else None
  | Junk _ => None
  end.

Definition refused_entry (e : entry) : option jsstring :=
  match e with
  | Name t => if validatePackageName (VStr t) then None else Some t
  | Junk x => Some x
  end.

(** The batch rule as the specification words it, for an array of strings:
    the entries are deduplicated by exact match, then classified, each
    partition in first-seen order. *)
Definition exact_dedup_rule (items : list jsstring) : Prop :=
  let d := first_seen (Name <$> items) in
  sanitizePackageList (VArr (VStr <$> items))
  = {| valid := omap accepted_name d; invalid := omap refused_entry d |}.

(** A run of calls for one key with the same limit and window, at the given
    clock readings, in order. *)
Fixpoint run_calls (key : jsstring) (maxRequests windowMs : Z) (times : list Z)
    (store : gmap (list N) (list Z))
    : list RateDecision * gmap (list N) (list Z) :=
  match times with
  | [] => ([], store)
  | t :: times' =>
      let (d, store1) := checkRateLimit key maxRequests windowMs t store in
      let (ds, store2) := run_calls key maxRequests windowMs times' store1 in
      (d :: ds, store2)
  end.

(** A timestamp that is not in the future of [now] and still inside its
    window. *)
Definition fresh (now windowMs t : Z) : Prop :=
  (t ≤ now)%Z ∧ (now - t < windowMs)%Z.

(** The decision rule as the specification words it, for one call: the bucket
    is pruned to the timestamps within the window, [resetMs] counts from the
    oldest survivor (from [now] when none is left), [remaining] is
    [max(0, limit - size)] less one on admission, and neither is negative. *)
Definition decision_rule (key : jsstring) (maxRequests windowMs now : Z)
    (store : gmap (list N) (list Z)) : Prop :=
  let survivors := filter (λ t, (now - t < windowMs)%Z) (bucket store key) in
  let d := (checkRateLimit key maxRequests windowMs now store).1 in
  let store' := (checkRateLimit key maxRequests windowMs now store).2 in
  (allowed d = true ↔ (Z.of_nat (length survivors) < maxRequests)%Z)
  ∧ bucket store' key = survivors ++ (if allowed d then [now] else [])
  ∧ resetMs d = (List.hd now survivors + windowMs - now)%Z
  ∧ remaining d
    = (Z.max 0 (maxRequests - Z.of_nat (length survivors))
       - (if allowed d then 1 else 0))%Z
  ∧ (0 ≤ remaining d)%Z
  ∧ (0 ≤ resetMs d)%Z.

(** *** What a pattern matches

    [matches r before m after]: the pattern [r] matches the run [m] of the
    input, where [before] is the input to the left of the run, nearest unit
    first, and [after] the input to its right. *)
Definition within (hi : option nat) (n : nat) : Prop :=
  match hi with
  | Some h => (n ≤ h)%nat
  | None => True
  end.

Fixpoint matches (r : regex) (before m after : jsstring) : Prop :=
  match r with
  | Eps => m = []
  | Class p => ∃ c, m = [c] ∧ p c = true
  | Cat r1 r2 =>
      ∃ m1 m2, m = m1 ++ m2
               ∧ matches r1 before m1 (m2 ++ after)
               ∧ matches r2 (rev m1 ++ before) m2 after
  | Or r1 r2 => matches r1 before m after ∨ matches r2 before m after
  | Opt r1 => matches r1 before m after ∨ m = []
  | Rep p lo hi =>
      Forall (λ c, p c = true) m ∧ (lo ≤ length m)%nat ∧ within hi (length m)
  | Bol => m = [] ∧ before = []
  | Eol => m = [] ∧ after = []
  | WordB => m = [] ∧ word_at before ≠ word_at after
  end.

(** The pattern matches somewhere in [s]. *)
Definition found (r : regex) (s : jsstring) : Prop :=
  ∃ pre m post, s = pre ++ m ++ post ∧ matches r (rev pre) m post.

(** *** White-space-delimited tokens

    [spaced s toks]: [toks] are the runs of [s] between its maximal runs of
    white space, in order; a string that begins or ends with white space has
    an empty first or last token, as [split] gives it. *)
Definition word_start (s : jsstring) : Prop :=
  match s with
  | c :: _ => is_space c = false
  | [] => True
  end.

Inductive spaced : jsstring → list jsstring → Prop :=
| spaced_last (w : jsstring) :
    Forall (λ c, is_space c = false) w →
    spaced w [w]
| spaced_gap (w gap rest : jsstring) (toks : list jsstring) :
    Forall (λ c, is_space c = false) w →
    gap ≠ [] →
    Forall (λ c, is_space c = true) gap →
    word_start rest →
    spaced rest toks →
    spaced (w ++ gap ++ rest) (w :: toks).

(** *** The grammar of package names

    [shape first rest ver t]: [t] is an optional scope ["@" seg "/"], a name
    segment and an optional version ["@" spec]; a segment is a unit of class
    [first] followed by units of class [rest], and [spec] is one or more units
    of class [ver]. *)
Definition segment (first rest : N → bool) (seg : jsstring) : Prop :=
  ∃ c tl, seg = c :: tl ∧ first c = true ∧ Forall (λ x, rest x = true) tl.

Definition shape (first rest ver : N → bool) (t : jsstring) : Prop :=
  ∃ scope name version,
    t = scope ++ name ++ version
    ∧ (scope = [] ∨ ∃ seg, scope = str "@" ++ seg ++ str "/"
                           ∧ segment first rest seg)
    ∧ segment first rest name
    ∧ (version = [] ∨ ∃ spec, version = str "@" ++ spec ∧ spec ≠ []
                              ∧ Forall (λ x, ver x = true) spec).

(** The grammar the code implements. *)
Definition package_shape : jsstring → Prop :=
  shape pkg_first pkg_rest pkg_version.

(** The grammar as the specification words it: every unit of a segment is a
    lower-case alphanumeric or one of [-._~], and a version is made of
    digits, dots and the range operators. *)
Definition name_unit (c : N) : bool :=
  is_lower c || is_digit c || one_of "-._~" c.

Definition range_unit (c : N) : bool :=
  is_digit c || one_of ".^~>=<|" c.

Definition stated_shape : jsstring → Prop :=
  shape name_unit name_unit range_unit.

Definition stated_package_rule (s : jsstring) : Prop :=
  validatePackageName (VStr s) = true
  ↔ (length (trim s) ≤ 214)%nat ∧ stated_shape (trim s).

(** *** Names used by the further properties *)

(** White space removed at the right end only. *)
Definition trim_right (s : jsstring) : jsstring := rev (drop_spaces (rev s)).

(** The utilities that the deny-list names as whole words. *)
Definition DANGEROUS_WORDS : list string :=
  ["sudo"; "curl"; "wget"; "chmod"; "chown"; "dd"; "mkfs"; "kill"; "pkill";
   "reboot"; "shutdown"]%string.

(** The literal fragments of the deny-list. *)
Definition DENIED_FRAGMENTS : list string :=
  ["../"; "/etc/"; "/proc/"; "/sys/"]%string.

(** ** Input validation helpers *)

Inductive StringError :=
| NotAString (fieldName : jsstring)
| EmptyString (fieldName : jsstring)
| StringTooLong (fieldName : jsstring) (maxLength : Z).

Inductive StringResult :=
| StringOk (value : jsstring)
| StringRejected (e : StringError).

Definition validateString (value : JSValue) (fieldName : jsstring)
    (maxLength : Z) : StringResult :=
  match value with
  | VStr s =>
      if is_nil (trim s) then StringRejected (EmptyString fieldName)
      else if (maxLength <? Z.of_nat (length s))%Z
      then StringRejected (StringTooLong fieldName maxLength)
      else StringOk (trim s)
  | _ => StringRejected (NotAString fieldName)
  end.

(** [s.split(sep)] for a one-unit separator; [cur] is the piece being read,
    last unit first. *)
Fixpoint split_on_go (sep : N) (cur s : jsstring) : list jsstring :=
  match s with
  | [] => [rev cur]
  | c :: s' =>
      if c =? sep then rev cur :: split_on_go sep [] s'
      else split_on_go sep (c :: cur) s'
  end.

Definition split_on (sep : N) (s : jsstring) : list jsstring :=
  split_on_go sep [] s.

(** [x || y] on strings that may be missing: the first that is present and
    not empty. *)
Definition or_else (x : option jsstring) (y : jsstring) : jsstring :=
  match x with
  | Some ((_ :: _) as s) => s
  | _ => y
  end.

(** [getClientId]: [forwarded] and [realIp] are what [request.headers.get]
    answers for [x-forwarded-for] and [x-real-ip], [None] for a header that
    is absent. *)
Definition getClientId (forwarded realIp : option jsstring) : jsstring :=
  let first :=
    match forwarded with
    | Some f =>
        match split_on 44 f with
        | piece :: _ => Some (trim piece)
        | [] => None
        end
    | None => None
    end in
  or_else first (or_else realIp (str "unknown")).

(** The text before the first comma, or all of it when there is none. *)
Fixpoint before_comma (s : jsstring) : jsstring :=
  match s with
  | [] => []
  | c :: s' => if c =? 44 then [] else c :: before_comma s'
  end.

(** The clock readings of a run at which the call was admitted. *)
Fixpoint admitted_times (times : list Z) (ds : list RateDecision) : list Z :=
  match times, ds with
  | t :: times', d :: ds' =>
      if allowed d then t :: admitted_times times' ds'
      else admitted_times times' ds'
  | _, _ => []
  end.

(** Clock readings that never go back, starting no earlier than [prev]. *)
Fixpoint ascending (prev : Z) (times : list Z) : Prop :=
  match times with
  | [] => True
  | t :: times' => (prev ≤ t)%Z ∧ ascending t times'
  end.

(** The units a valid package name can be made of: ASCII letters, digits and
    [_ - . ~ @ / ^ > = < |]. *)
Definition safe_unit (c : N) : bool :=
  is_word c || one_of "-.~@/^>=<|" c.

(** One to three decimal digits. *)
Definition octet (m : jsstring) : Prop :=
  Forall (λ c, is_digit c = true) m ∧ (1 ≤ length m ≤ 3)%nat.

(** Two digits that read as a number from 16 to 31. *)
Definition in_172_block (x y : N) : bool :=
  is_digit x && is_digit y
  && (16 <=? 10 * (x - 48) + (y - 48)) && (10 * (x - 48) + (y - 48) <=? 31).

(** Dotted hostnames in [10.x.x.x], [172.16-31.x.x] and [192.168.x.x]. *)
Inductive private_ipv4 : jsstring → Prop :=
| private_10 (a b c : jsstring) :
    octet a → octet b → octet c →
    private_ipv4 (str "10." ++ a ++ str "." ++ b ++ str "." ++ c)
| private_172 (x y : N) (a b : jsstring) :
    in_172_block x y = true → octet a → octet b →
    private_ipv4 (str "172." ++ [x; y] ++ str "." ++ a ++ str "." ++ b)
| private_192 (a b : jsstring) :
    octet a → octet b →
    private_ipv4 (str "192.168." ++ a ++ str "." ++ b).

(** ** Quote sanitiser of the enhanced scrape route *)

(** [text.replace(/[class]/g, rep)] for a class of single units and a
    replacement without [$]. *)
Definition replace_units (p : N → bool) (rep : jsstring) (s : jsstring)
    : jsstring :=
  flat_map (λ c, if p c then rep else [c]) s.

Definition sanitizeQuotes (text : jsstring) : jsstring :=
  let s1 := replace_units (in_range 8216 8219) (str "'") text in
  let s2 := replace_units (in_range 8220 8223) [34] s1 in
  let s3 := replace_units (λ c, (c =? 171) || (c =? 187)) [34] s2 in
  let s4 := replace_units (in_range 8249 8250) (str "'") s3 in
  let s5 := replace_units (in_range 8211 8212) (str "-") s4 in
  let s6 := replace_units (N.eqb 8230) (str "...") s5 in
  replace_units (N.eqb 160) (str " ") s6.

(** The units the sanitiser rewrites: typographic quotes, guillemets,
    dashes, the ellipsis and the no-break space. *)
Definition typographic (c : N) : bool :=
  in_range 8216 8223 c || (c =? 171) || (c =? 187) || in_range 8249 8250 c
  || in_range 8211 8212 c || (c =? 8230) || (c =? 160).

(** What one unit becomes. *)
Definition plain_unit (c : N) : jsstring :=
  if in_range 8216 8219 c || in_range 8249 8250 c then str "'"
  else if in_range 8220 8223 c || (c =? 171) || (c =? 187) then [34]
  else if in_range 8211 8212 c then str "-"
  else if c =? 8230 then str "..."
  else if c =? 160 then str " "
  else [c].

(** ** Route handlers, up to the call of the sandbox provider

    A handler reads the two client headers, the parsed request body
    ([None] when reading it throws, which the handler answers with status
    500) and whether a sandbox is active; it returns its answer and the
    rate-limit store. [Run payload] stands for the provider being called with
    [payload]. *)

(** [Math.ceil(ms / 1000)] *)
Definition ceil_seconds (ms : Z) : Z := (- ((- ms) / 1000))%Z.

Inductive CommandGate (A : Type) :=
| CmdRateLimited (retryAfter : Z)
| CmdInvalid (e : CommandError)
| CmdNoSandbox
| CmdFailed
| CmdRun (payload : A).

Arguments CmdRateLimited {A} retryAfter.
Arguments CmdInvalid {A} e.
Arguments CmdNoSandbox {A}.
Arguments CmdFailed {A}.
Arguments CmdRun {A} payload.

(** [POST /api/run-command]: the provider gets the executable and the
    argument list. *)
Definition run_command (forwarded realIp : option jsstring)
    (body : option JSValue) (sandbox : bool) (now : Z)
    (store : gmap (list N) (list Z))
    : CommandGate (jsstring * list jsstring) * gmap (list N) (list Z) :=
  let clientId := getClientId forwarded realIp in
  let (rateCheck, store') :=
    checkRateLimit (str "run-command:" ++ clientId) 20 60000 now store in
  if negb (allowed rateCheck)
  then (CmdRateLimited (ceil_seconds (resetMs rateCheck)), store')
  else match body with
       | None => (CmdFailed, store')
       | Some command =>
           match validateCommand command with
           | CommandRejected e => (CmdInvalid e, store')
           | CommandOk cmd args =>
               if sandbox then (CmdRun (cmd, args), store')
               else (CmdNoSandbox, store')
           end
       end.

(** [POST /api/run-command-v2]: the provider gets the command as the client
    sent it. *)
Definition run_command_v2 (forwarded realIp : option jsstring)
    (body : option JSValue) (provider : bool) (now : Z)
    (store : gmap (list N) (list Z))
    : CommandGate JSValue * gmap (list N) (list Z) :=
  let clientId := getClientId forwarded realIp in
  let (rateCheck, store') :=
    checkRateLimit (str "run-command-v2:" ++ clientId) 20 60000 now store in
  if negb (allowed rateCheck)
  then (CmdRateLimited (ceil_seconds (resetMs rateCheck)), store')
  else match body with
       | None => (CmdFailed, store')
       | Some command =>
           match validateCommand command with
           | CommandRejected e => (CmdInvalid e, store')
           | CommandOk cmd args =>
               if provider then (CmdRun command, store')
               else (CmdNoSandbox, store')
           end
       end.

Inductive InstallGate :=
| InstRateLimited
| InstPackagesRequired
| InstNoValidNames
| InstNoSandbox
| InstFailed
| InstRun (packages : list jsstring).

(** [POST /api/install-packages-v2] *)
Definition install_packages_v2 (forwarded realIp : option jsstring)
    (body : option JSValue) (provider : bool) (now : Z)
    (store : gmap (list N) (list Z))
    : InstallGate * gmap (list N) (list Z) :=
  let clientId := getClientId forwarded realIp in
  let (rateCheck, store') :=
    checkRateLimit (str "install-packages:" ++ clientId) 5 60000 now store in
  if negb (allowed rateCheck) then (InstRateLimited, store')
  else match body with
       | None => (InstFailed, store')
       | Some (VArr ((_ :: _) as items)) =>
           match valid (sanitizePackageList (VArr items)) with
           | [] => (InstNoValidNames, store')
           | validPackages =>
               if provider then (InstRun validPackages, store')
               else (InstNoSandbox, store')
           end
       | Some _ => (InstPackagesRequired, store')
       end.

(** Two units that are equal or both white space, and two strings that are
    so unit by unit. *)
Definition same_or_space (c c' : N) : Prop :=
  c = c' ∨ (is_space c = true ∧ is_space c' = true).

Definition respaced (s s' : jsstring) : Prop := Forall2 same_or_space s s'.

(** A pattern whose classes do not tell one white-space unit from another. *)
Fixpoint space_blind (r : regex) : Prop :=
  match r with
  | Class p | Rep p _ _ => ∀ c c', same_or_space c c' → p c = p c'
  | Cat r1 r2 | Or r1 r2 => space_blind r1 ∧ space_blind r2
  | Opt r1 => space_blind r1
  | Eps | Bol | Eol | WordB => True
  end.

(** ** Health check

    [process.env] is a lookup from variable names to values; a variable
    counts as set when it is present and not the empty string ([!!value]). *)
Definition is_set (env : string → option jsstring) (name : string) : bool :=
  match env name with
  | Some (_ :: _) => true
  | _ => false
  end.

(** The status part of the health report, which is computed from the
    environment alone. *)
Record HealthReport := {
  healthy : bool;
  http_status : Z;
  sandbox_provider : jsstring;
  sandbox_configured : bool;
  ai_provider : bool;
  scraping : bool
}.

Definition health (env : string → option jsstring) : HealthReport :=
  let sandboxProvider := or_else (env "SANDBOX_PROVIDER"%string) (str "e2b") in
  let sandboxConfigured :=
    if bool_decide (sandboxProvider = str "e2b") then is_set env "E2B_API_KEY"%string
    else is_set env "VERCEL_OIDC_TOKEN"%string || is_set env "VERCEL_TOKEN"%string in
  let hasAiProvider :=
    is_set env "AI_GATEWAY_API_KEY"%string || is_set env "ANTHROPIC_API_KEY"%string
    || is_set env "OPENAI_API_KEY"%string || is_set env "GEMINI_API_KEY"%string
    || is_set env "GROQ_API_KEY"%string in
  let ok := hasAiProvider && sandboxConfigured in
  {| healthy := ok;
     http_status := if ok then 200 else 503;
     sandbox_provider := sandboxProvider;
     sandbox_configured := sandboxConfigured;
     ai_provider := hasAiProvider;
     scraping := is_set env "FIRECRAWL_API_KEY"%string |}.

(** [env'] has every variable set that [env] has set, and the same sandbox
    provider. *)
Definition extends (env env' : string → option jsstring) : Prop :=
  (∀ name, is_set env name = true → is_set env' name = true)
  ∧ or_else (env' "SANDBOX_PROVIDER"%string) (str "e2b")
    = or_else (env "SANDBOX_PROVIDER"%string) (str "e2b").

(** * Properties *)

(** ** Strings *)

Lemma startsWith_prefix (s p : jsstring) :
  startsWith s p = true ↔ p `prefix_of` s.
Proof.
  revert s. induction p as [|a p IH]; intros s; simpl.
  - split; [intros _; apply prefix_nil | reflexivity].
  - destruct s as [|c s].
    + split; [discriminate | intros [k Hk]; discriminate].
    + rewrite andb_true_iff, N.eqb_eq, IH. split.
      * intros [-> Hp]. by apply prefix_cons.
      * intros [k Hk]. injection Hk as -> ->. split; [done | by exists k].
Qed.

Lemma startsWith_not_prefix (s p : jsstring) :
  startsWith s p = false ↔ ¬ p `prefix_of` s.
Proof.
  rewrite <- startsWith_prefix. destruct (startsWith s p); naive_solver.
Qed.

Lemma includes_occurs (s p : jsstring) :
  includes s p = true ↔ occurs_in p s.
Proof.
  induction s as [|c s IH]; simpl.
  - rewrite orb_false_r, startsWith_prefix. split.
    + intros [k ->]. by exists [], k.
    + intros (a & b & H). symmetry in H.
      apply app_eq_nil in H as [-> H]. apply app_eq_nil in H as [-> _].
      apply prefix_nil.
  - rewrite orb_true_iff, IH, startsWith_prefix. split.
    + intros [[k ->] | (a & b & ->)].
      * by exists [], k.
      * by exists (c :: a), b.
    + intros (a & b & H). destruct a as [|x a]; simpl in H.
      * left. exists b. done.
      * right. injection H as -> ->. by exists a, b.
Qed.

Lemma includes_not_occurs (s p : jsstring) :
  includes s p = false ↔ ¬ occurs_in p s.
Proof.
  rewrite <- includes_occurs. destruct (includes s p); naive_solver.
Qed.

Lemma fullPath_candidate (path base : jsstring) :
  fullPath path base = candidate path base.
Proof.
  unfold fullPath, candidate. destruct path as [|c path]; [done|].
  simpl. destruct (N.eqb_spec c 47) as [->|Hc]; [done|].
  destruct c as [|c]; [done|].
  do 6 (destruct c as [c|c|]; try done).
Qed.

(** ** Sandbox paths *)

Lemma path_rule_nonempty (c : N) (path base : jsstring) :
  path_rule (c :: path) base.
Proof.
  unfold path_rule, validateSandboxPath, validateSandboxPathString.
  rewrite fullPath_candidate.
  set (p := c :: path). set (full := candidate p base).
  split.
  - intros [H | H].
    + apply includes_occurs in H. rewrite H. eauto.
    + apply includes_occurs in H. rewrite H.
      destruct (includes p (str "..")); eauto.
  - intros H1 H2.
    apply includes_not_occurs in H1. apply includes_not_occurs in H2.
    rewrite H1, H2. split.
    + intros [H | H]; apply startsWith_prefix in H; rewrite H; simpl;
        [done | by rewrite andb_false_r].
    + intros H.
      destruct (startsWith full base) eqn:Hb.
      { exfalso. apply H. left. by apply startsWith_prefix. }
      destruct (startsWith full VERCEL_ROOT) eqn:Hv.
      { exfalso. apply H. right. by apply startsWith_prefix. }
      done.
Qed.




(** C10: containment is a prefix test on the string as given, so paths that
    are clean of [".."] and null bytes and lie outside the base directory are
    accepted: with the default base, ["/home/user/appdata"] comes back as its
    own [normalizedPath]; and a clean path that starts with
    ["/vercel/sandbox"] is accepted whatever [allowedBase] is. *)
Theorem validateSandboxPath_prefix_escape :
  (¬ occurs_in (str "..") (str "/home/user/appdata")
   ∧ ¬ occurs_in [0] (str "/home/user/appdata")
   ∧ ¬ inside_dir DEFAULT_BASE (str "/home/user/appdata")
   ∧ validateSandboxPath (VStr (str "/home/user/appdata")) DEFAULT_BASE
     = PathOk (str "/home/user/appdata"))
  ∧ (∀ base rest : jsstring,
       ¬ occurs_in (str "..") (VERCEL_ROOT ++ rest) →
       ¬ occurs_in [0] (VERCEL_ROOT ++ rest) →
       validateSandboxPath (VStr (VERCEL_ROOT ++ rest)) base
       = PathOk (VERCEL_ROOT ++ rest)).
Proof.
  split.
  - split; [by apply includes_not_occurs|].
    split; [by apply includes_not_occurs|].
    split; [|reflexivity].
    intros [H | H]; [discriminate H|].
    by apply startsWith_not_prefix in H.
  - intros base rest H1 H2.
    apply includes_not_occurs in H1. apply includes_not_occurs in H2.
    assert (Hv : startsWith (VERCEL_ROOT ++ rest) VERCEL_ROOT = true)
      by (apply startsWith_prefix; by exists rest).
    change (validateSandboxPath (VStr (VERCEL_ROOT ++ rest)) base)
      with (validateSandboxPathString (VERCEL_ROOT ++ rest) base).
    unfold validateSandboxPathString.
    rewrite H1, H2, fullPath_candidate.
    replace (candidate (VERCEL_ROOT ++ rest) base) with (VERCEL_ROOT ++ rest)
      by reflexivity.
    rewrite Hv. by rewrite andb_false_r.
Qed.

Lemma validateSandboxPath_prefix_escape_witness :
  validateSandboxPath (VStr (VERCEL_ROOT ++ str "/other/tenant")) (str "/srv/app")
  = PathOk (VERCEL_ROOT ++ str "/other/tenant").
Proof.
  apply (proj2 validateSandboxPath_prefix_escape);
    apply includes_not_occurs; vm_compute; reflexivity.
Defined.

(** ** Safe error responses *)


(** ** Package lists *)

Lemma filter_unseen_known (seen : list jsstring) (t : jsstring) (l : list entry) :
  t ∈ seen →
  filter (unseen seen) (filter (other_than t) l) = filter (unseen seen) l.
Proof.
  intros Ht. rewrite list_filter_filter. apply list_filter_iff.
  intros [t'|x]; simpl; [|tauto].
  split; [tauto|]. intros H. split; [done|]. intros ->. done.
Qed.

Lemma filter_unseen_new (seen : list jsstring) (t : jsstring) (l : list entry) :
  filter (unseen seen) (filter (other_than t) l) = filter (unseen (t :: seen)) l.
Proof.
  rewrite list_filter_filter. apply list_filter_iff.
  intros [t'|x]; simpl; [|tauto].
  rewrite not_elem_of_cons. tauto.
Qed.

(** The loop, started in any state, appends to its two lists the
    classification of the first-seen entries that are not yet in [seen]. *)
Lemma sanitize_loop (items : list JSValue) (st : SanitizeState) :
  let d := filter (unseen (st_seen st)) (first_seen (to_entry <$> items)) in
  st_valid (fold_left sanitize_step items st)
  = st_valid st ++ omap accepted_name d
  ∧ st_invalid (fold_left sanitize_step items st)
    = st_invalid st ++ omap refused_entry d.
Proof.
  revert st. induction items as [|v items IH]; intros st; simpl.
  - by rewrite !app_nil_r.
  - assert (Hjunk : ∀ x, to_entry v = Junk x →
              sanitize_step st v
              = {| st_valid := st_valid st;
                   st_invalid := st_invalid st ++ [toString v];
                   st_seen := st_seen st |} →
              toString v = x →
              st_valid (fold_left sanitize_step items (sanitize_step st v))
              = st_valid st
                ++ omap accepted_name
                     (filter (unseen (st_seen st))
                        (Junk x :: first_seen (to_entry <$> items)))
              ∧ st_invalid (fold_left sanitize_step items (sanitize_step st v))
                = st_invalid st
                  ++ omap refused_entry
                       (filter (unseen (st_seen st))
                          (Junk x :: first_seen (to_entry <$> items)))).
    { intros x _ Hstep <-. rewrite Hstep.
      destruct (IH {| st_valid := st_valid st;
                      st_invalid := st_invalid st ++ [toString v];
                      st_seen := st_seen st |}) as [IHv IHi].
      simpl in IHv, IHi. rewrite IHv, IHi.
      rewrite filter_cons_True by done. simpl.
      by rewrite <- app_assoc. }
    destruct v as [| |b|s|l|x]; try (by apply (Hjunk _ eq_refl eq_refl)).
    simpl to_entry. simpl first_seen.
    assert (Hstep : sanitize_step st (VStr s)
              = if bool_decide (trim s ∈ st_seen st) then st
                else if validatePackageName (VStr (trim s))
                then {| st_valid := st_valid st ++ [trim s];
                        st_invalid := st_invalid st;
                        st_seen := trim s :: st_seen st |}
                else {| st_valid := st_valid st;
                        st_invalid := st_invalid st ++ [trim s];
                        st_seen := trim s :: st_seen st |}) by reflexivity.
    rewrite Hstep. clear Hstep Hjunk.
    case_bool_decide as Hseen.
    + rewrite filter_cons_False by (simpl; tauto).
      rewrite filter_unseen_known by done. apply IH.
    + rewrite filter_cons_True by done.
      rewrite filter_unseen_new.
      cbn [omap list_omap accepted_name refused_entry].
      destruct (validatePackageName (VStr (trim s))) eqn:Hv.
      * destruct (IH {| st_valid := st_valid st ++ [trim s];
                        st_invalid := st_invalid st;
                        st_seen := trim s :: st_seen st |}) as [IHv IHi].
        simpl in IHv, IHi. rewrite IHv, IHi. by rewrite <- app_assoc.
      * destruct (IH {| st_valid := st_valid st;
                        st_invalid := st_invalid st ++ [trim s];
                        st_seen := trim s :: st_seen st |}) as [IHv IHi].
        simpl in IHv, IHi. rewrite IHv, IHi. by rewrite <- app_assoc.
Qed.

Lemma filter_unseen_nil (l : list entry) : filter (unseen []) l = l.
Proof.
  induction l as [|e l IH]; [done|].
  rewrite filter_cons_True; [by rewrite IH|].
  destruct e; simpl; [apply not_elem_of_nil | done].
Qed.

Lemma sanitizePackageList_array (items : list JSValue) :
  sanitizePackageList (VArr items)
  = {| valid := omap accepted_name (first_seen (to_entry <$> items));
       invalid := omap refused_entry (first_seen (to_entry <$> items)) |}.
Proof.
  unfold sanitizePackageList.
  destruct (sanitize_loop items
              {| st_valid := []; st_invalid := []; st_seen := [] |}) as [Hv Hi].
  simpl in Hv, Hi. rewrite filter_unseen_nil in Hv, Hi. by rewrite Hv, Hi.
Qed.



(** ** Rate limiter *)

Lemma prune_filter (now windowMs : Z) (l : list Z) :
  prune now windowMs l = filter (λ t, (now - t < windowMs)%Z) l.
Proof.
  unfold prune. induction l as [|t l IH]; [done|]. simpl.
  destruct (Z.ltb_spec (now - t) windowMs) as [H|H].
  - rewrite filter_cons_True by done. by rewrite IH.
  - rewrite filter_cons_False by lia. done.
Qed.

Lemma prune_app (now windowMs : Z) (l1 l2 : list Z) :
  prune now windowMs (l1 ++ l2) = prune now windowMs l1 ++ prune now windowMs l2.
Proof. unfold prune. apply List.filter_app. Qed.

Lemma prune_all_kept (now windowMs : Z) (l : list Z) :
  Forall (λ t, (now - t < windowMs)%Z) l → prune now windowMs l = l.
Proof.
  induction 1 as [|t l Ht _ IH]; [done|]. unfold prune in *. simpl.
  destruct (Z.ltb_spec (now - t) windowMs); [by rewrite IH | lia].
Qed.

Lemma prune_all_dropped (now windowMs : Z) (l : list Z) :
  Forall (λ t, (windowMs ≤ now - t)%Z) l → prune now windowMs l = [].
Proof.
  induction 1 as [|t l Ht _ IH]; [done|]. unfold prune in *. simpl.
  destruct (Z.ltb_spec (now - t) windowMs); [lia | done].
Qed.

Lemma prune_in_window (now windowMs : Z) (l : list Z) :
  Forall (λ t, (now - t < windowMs)%Z) (prune now windowMs l).
Proof.
  rewrite prune_filter. apply Forall_forall. intros t Ht.
  by apply list_elem_of_filter in Ht as [Ht _].
Qed.

Lemma bucket_insert (store : gmap (list N) (list Z)) (key : jsstring) (l : list Z) :
  bucket (<[key := l]> store) key = l.
Proof. unfold bucket. by rewrite lookup_insert_eq. Qed.

Lemma oldest_or_hd (now : Z) (l : list Z) :
  Forall (λ t, t ≠ 0%Z) l → oldest_or now l = List.hd now l.
Proof.
  intros H. destruct H as [|t l Ht _]; [done|]. simpl.
  destruct (Z.eqb_spec t 0); [done | done].
Qed.




Lemma checkRateLimit_admitted (key : jsstring) (maxRequests windowMs now : Z)
    (store : gmap (list N) (list Z)) :
  allowed (checkRateLimit key maxRequests windowMs now store).1 = true →
  (Z.of_nat (length (prune now windowMs (bucket store key))) < maxRequests)%Z
  ∧ (checkRateLimit key maxRequests windowMs now store).2
    = <[key := prune now windowMs (bucket store key) ++ [now]]> store.
Proof.
  unfold checkRateLimit.
  destruct (Z.leb_spec maxRequests
              (Z.of_nat (length (prune now windowMs (bucket store key)))));
    simpl; [discriminate | done].
Qed.

Lemma checkRateLimit_full (key : jsstring) (maxRequests windowMs now : Z)
    (store : gmap (list N) (list Z)) :
  (maxRequests ≤ Z.of_nat (length (prune now windowMs (bucket store key))))%Z →
  allowed (checkRateLimit key maxRequests windowMs now store).1 = false
  ∧ remaining (checkRateLimit key maxRequests windowMs now store).1 = 0%Z
  ∧ (checkRateLimit key maxRequests windowMs now store).2
    = <[key := prune now windowMs (bucket store key)]> store.
Proof.
  intros H. unfold checkRateLimit.
  destruct (Z.leb_spec maxRequests
              (Z.of_nat (length (prune now windowMs (bucket store key)))));
    simpl; [done | lia].
Qed.

Lemma fresh_kept (now windowMs t : Z) (pre : list Z) :
  (t ≤ now)%Z → Forall (fresh now windowMs) pre → prune t windowMs pre = pre.
Proof.
  intros Ht Hpre. apply prune_all_kept.
  eapply Forall_impl; [exact Hpre|]. intros p [Hp1 Hp2]. simpl. lia.
Qed.

(** While every call of a run is admitted, the calls already recorded stay
    in the bucket and the bucket never holds more than the limit. *)
Lemma run_calls_admitted (key : jsstring) (maxRequests windowMs now : Z)
    (times : list Z) :
  ∀ (store : gmap (list N) (list Z)) (old pre : list Z),
    bucket store key = old ++ pre →
    Forall (fresh now windowMs) pre →
    Forall (fresh now windowMs) times →
    Forall (λ d, allowed d = true)
      (run_calls key maxRequests windowMs times store).1 →
    times ≠ [] →
    ∃ old',
      (run_calls key maxRequests windowMs times store).2 !! key
      = Some (old' ++ pre ++ times)
      ∧ (Z.of_nat (length (old' ++ pre ++ times)) ≤ maxRequests)%Z.
Proof.
  induction times as [|t times IH]; intros store old pre Hb Hpre Htimes Hall Hne;
    [done|].
  simpl in Hall |- *.
  destruct (checkRateLimit key maxRequests windowMs t store) as [d s1] eqn:E.
  destruct (run_calls key maxRequests windowMs times s1) as [ds s2] eqn:R.
  simpl in Hall. apply Forall_cons in Hall as [Hd Hds].
  apply Forall_cons in Htimes as [[Ht1 Ht2] Htimes].
  pose proof (checkRateLimit_admitted key maxRequests windowMs t store) as A.
  rewrite E in A. simpl in A. destruct (A Hd) as [Hlen ->]. clear A.
  rewrite Hb, prune_app, (fresh_kept now windowMs t pre Ht1 Hpre) in *.
  simpl.
  destruct times as [|t' times'].
  - simpl in R. injection R as <- <-.
    exists (prune t windowMs old). rewrite lookup_insert_eq.
    split; [by rewrite <- !app_assoc|].
    rewrite !length_app in *. simpl. lia.
  - specialize (IH (<[key := (prune t windowMs old ++ pre) ++ [t]]> store)
                  (prune t windowMs old) (pre ++ [t])).
    rewrite R in IH. simpl in IH.
    destruct IH as (old' & Hlook & Hle); try done.
    + rewrite bucket_insert. by rewrite <- app_assoc.
    + apply Forall_app. split; [done|]. by repeat constructor.
    + exists old'. rewrite <- !app_assoc in *. simpl in *. done.
Qed.

(** The periodic sweep between two calls does not change what a later call
    with a window of at most 300000 milliseconds sees. *)
Lemma sweep_bucket (now : Z) (store : gmap (list N) (list Z)) (key : jsstring) :
  bucket (sweep now store) key = prune now 300000 (bucket store key).
Proof.
  unfold bucket, sweep. rewrite lookup_omap.
  destruct (store !! key) as [ts|]; simpl; [|done].
  by destruct (prune now 300000 ts).
Qed.

Lemma sweep_keeps_window (swept now windowMs : Z)
    (store : gmap (list N) (list Z)) (key : jsstring) :
  (swept ≤ now)%Z → (windowMs ≤ 300000)%Z →
  prune now windowMs (bucket (sweep swept store) key)
  = prune now windowMs (bucket store key).
Proof.
  intros Hle HW. rewrite sweep_bucket. unfold prune.
  induction (bucket store key) as [|t l IH]; [done|]. simpl.
  destruct (Z.ltb_spec (swept - t) 300000) as [Hk | Hk]; simpl.
  - by rewrite IH.
  - rewrite IH. destruct (Z.ltb_spec (now - t) windowMs); [lia | done].
Qed.

(** Recording a clock reading other than [0] keeps a bucket free of the
    timestamp [0]. *)
Lemma checkRateLimit_nonzero (key : jsstring) (maxRequests windowMs now : Z)
    (store : gmap (list N) (list Z)) :
  now ≠ 0%Z →
  Forall (λ t, t ≠ 0%Z) (bucket store key) →
  Forall (λ t, t ≠ 0%Z)
    (bucket (checkRateLimit key maxRequests windowMs now store).2 key).
Proof.
  intros Hnow Hnz.
  assert (Hp : Forall (λ t, t ≠ 0%Z) (prune now windowMs (bucket store key))).
  { rewrite prune_filter. apply Forall_forall. intros t Ht.
    apply list_elem_of_filter in Ht as [_ Ht].
    by apply (proj1 (Forall_forall _ _) Hnz). }
  unfold checkRateLimit.
  destruct (maxRequests <=? _)%Z; simpl; rewrite bucket_insert; [done|].
  apply Forall_app. split; [done | by constructor].
Qed.



(** ** The matcher against the meaning of patterns *)

Lemma rep_match_spec (p : N → bool) (s : jsstring) :
  ∀ lo hi before k,
    rep_match p lo hi before s k = true
    ↔ ∃ m after, s = m ++ after
        ∧ Forall (λ c, p c = true) m ∧ (lo ≤ length m)%nat ∧ within hi (length m)
        ∧ k (rev m ++ before) after = true.
Proof.
  induction s as [|c s IH]; intros lo hi before k; simpl.
  - rewrite andb_true_iff. split.
    + intros [Hlo Hk]. exists [], []. destruct lo; [|done].
      repeat split; try done. destruct hi; simpl; lia.
    + intros (m & after & Hs & _ & Hlo & _ & Hk).
      symmetry in Hs. apply app_eq_nil in Hs as [-> ->].
      simpl in *. destruct lo; [done | lia].
  - rewrite orb_true_iff, !andb_true_iff, IH. split.
    + intros [[[Hmore Hp] (m & after & -> & Hall & Hlo & Hhi & Hk)] | [Hlo Hk]].
      * exists (c :: m), after. simpl. rewrite <- app_assoc. simpl.
        repeat split; try done.
        -- by constructor.
        -- lia.
        -- destruct hi as [[|h]|]; simpl in *; try done. lia.
      * exists [], (c :: s). destruct lo; [|done].
        repeat split; try done. destruct hi; simpl; lia.
    + intros (m & after & Hs & Hall & Hlo & Hhi & Hk).
      destruct m as [|x m]; simpl in *.
      * right. subst after. destruct lo; [done | lia].
      * left. injection Hs as -> ->.
        apply Forall_cons in Hall as [Hx Hall].
        split.
        -- split; [|done]. destruct hi as [[|h]|]; simpl in *; try done. lia.
        -- exists m, after. rewrite <- app_assoc in Hk. simpl in Hk.
           repeat split; try done; [lia|].
           destruct hi as [h|]; simpl in *; [lia | done].
Qed.

Lemma rmatch_spec (r : regex) :
  ∀ before s k,
    rmatch r before s k = true
    ↔ ∃ m after, s = m ++ after ∧ matches r before m after
                 ∧ k (rev m ++ before) after = true.
Proof.
  induction r as [|p|r1 IH1 r2 IH2|r1 IH1 r2 IH2|r1 IH1|p lo hi| | |];
    intros before s k; simpl.
  - split; [intros H; by exists [], s | by intros (m & after & -> & -> & H)].
  - destruct s as [|c s].
    + split; [done|]. intros (m & after & Hs & (x & -> & _) & _). done.
    + rewrite andb_true_iff. split.
      * intros [Hp Hk]. exists [c], s. eauto.
      * intros (m & after & Hs & (x & -> & Hp) & Hk).
        injection Hs as -> ->. done.
  - rewrite IH1. split.
    + intros (m1 & a1 & -> & H1 & Hk). apply IH2 in Hk
        as (m2 & after & -> & H2 & Hk).
      exists (m1 ++ m2), after. rewrite <- app_assoc, rev_app_distr, <- app_assoc.
      eauto 10.
    + intros (m & after & -> & (m1 & m2 & -> & H1 & H2) & Hk).
      exists m1, (m2 ++ after). rewrite <- app_assoc. repeat split; try done.
      apply IH2. exists m2, after.
      rewrite rev_app_distr, <- app_assoc in Hk. done.
  - rewrite orb_true_iff, IH1, IH2. split.
    + intros [(m & after & -> & H & Hk) | (m & after & -> & H & Hk)]; eauto 10.
    + intros (m & after & -> & [H | H] & Hk); [left | right]; eauto.
  - rewrite orb_true_iff, IH1. split.
    + intros [(m & after & -> & H & Hk) | Hk]; [eauto 10|].
      exists [], s. eauto.
    + intros (m & after & -> & [H | ->] & Hk); [left; eauto | by right].
  - rewrite rep_match_spec. split.
    + intros (m & after & -> & Hall & Hlo & Hhi & Hk). eauto 10.
    + intros (m & after & -> & (Hall & Hlo & Hhi) & Hk). eauto 10.
  - rewrite andb_true_iff. split.
    + intros [Hb Hk]. exists [], s. destruct before; [done | done].
    + intros (m & after & -> & [-> ->] & Hk). done.
  - rewrite andb_true_iff. split.
    + intros [Hs Hk]. exists [], s. destruct s; [done | done].
    + intros (m & after & -> & [-> ->] & Hk). done.
  - rewrite andb_true_iff. split.
    + intros [Hx Hk]. exists [], s. repeat split; try done.
      destruct (word_at before), (word_at s); done.
    + intros (m & after & -> & [-> Hw] & Hk). split; [|done]. simpl.
      destruct (word_at before), (word_at after); done.
Qed.

Lemma search_spec (r : regex) (s : jsstring) :
  ∀ before,
    search r before s = true
    ↔ ∃ pre m post, s = pre ++ m ++ post ∧ matches r (rev pre ++ before) m post.
Proof.
  induction s as [|c s IH]; intros before; simpl;
    rewrite orb_true_iff, rmatch_spec.
  - split.
    + intros [(m & after & Hs & H & _) | ?]; [|done]. by exists [], m, after.
    + intros (pre & m & post & Hs & H). left.
      symmetry in Hs. apply app_eq_nil in Hs as [-> Hs]. eauto.
  - rewrite IH. split.
    + intros [(m & after & Hs & H & _) | (pre & m & post & -> & H)].
      * by exists [], m, after.
      * exists (c :: pre), m, post. simpl. rewrite <- app_assoc. done.
    + intros (pre & m & post & Hs & H). destruct pre as [|x pre]; simpl in *.
      * left. eauto.
      * right. injection Hs as -> ->. exists pre, m, post.
        rewrite <- app_assoc in H. done.
Qed.

Lemma regex_test_found (r : regex) (s : jsstring) :
  regex_test r s = true ↔ found r s.
Proof.
  unfold regex_test, found. rewrite search_spec.
  by setoid_rewrite app_nil_r.
Qed.

Lemma regex_test_not_found (r : regex) (s : jsstring) :
  regex_test r s = false ↔ ¬ found r s.
Proof. rewrite <- regex_test_found. destruct (regex_test r s); naive_solver. Qed.

(** ** Command validator *)

Lemma drop_spaces_keeps (c : N) (s : jsstring) :
  c ∈ s → is_space c = false → c ∈ drop_spaces s.
Proof.
  intros Hin Hc. induction s as [|x s IH]; [done|]. simpl.
  destruct (is_space x) eqn:Hx; [|done].
  apply elem_of_cons in Hin as [-> | Hin]; [congruence | by apply IH].
Qed.

Lemma trim_keeps (c : N) (s : jsstring) :
  c ∈ s → is_space c = false → c ∈ trim s.
Proof.
  intros Hin Hc. unfold trim.
  apply list_elem_of_In. apply -> in_rev. apply list_elem_of_In.
  apply drop_spaces_keeps; [|done].
  apply list_elem_of_In. apply -> in_rev. apply list_elem_of_In.
  by apply drop_spaces_keeps.
Qed.

Lemma found_class (p : N → bool) (c : N) (s : jsstring) :
  c ∈ s → p c = true → found (Class p) s.
Proof.
  intros Hin Hp. apply list_elem_of_split in Hin as (l1 & l2 & ->).
  exists l1, [c], l2. split; [done|]. simpl. eauto.
Qed.

Lemma first_match_head {A} (a : A) (r : regex) (rest : list (A * regex))
    (s : jsstring) :
  regex_test r s = true → first_match ((a, r) :: rest) s = Some a.
Proof. intros H. simpl. by rewrite H. Qed.

Lemma metacharacter_class (c : N) :
  c ∈ str ";|&$`" → is_space c = false ∧ one_of ";&|`$" c = true.
Proof.
  intros H. repeat (apply elem_of_cons in H as [-> | H]; [done|]).
  by apply elem_of_nil in H.
Qed.

(** C2: a string that holds one of [;], [|], [&], [$] or a backtick anywhere
    is rejected whatever its first token is: as too long, or else by the first
    deny-list pattern. *)
Theorem validateCommand_metacharacter (s : jsstring) (c : N) :
  c ∈ s →
  c ∈ str ";|&$`" →
  validateCommand (VStr s) = CommandRejected CommandTooLong
  ∨ validateCommand (VStr s) = CommandRejected (CommandBlocked "[;&|`$]").
Proof.
  intros Hin Hmeta. apply metacharacter_class in Hmeta as [Hsp Hcls].
  pose proof (trim_keeps c s Hin Hsp) as Htrim.
  destruct s as [|x s]; [by apply elem_of_nil in Hin|].
  unfold validateCommand, validateCommandString.
  destruct (trim (x :: s)) as [|y t] eqn:Et; [by apply elem_of_nil in Htrim|].
  simpl is_nil. cbv iota.
  destruct (2000 <? length (y :: t))%nat; [by left|]. right.
  unfold BLOCKED_PATTERNS. rewrite first_match_head; [done|].
  apply regex_test_found. by apply (found_class _ c).
Qed.

Lemma validateCommand_metacharacter_witness :
  validateCommand (VStr (str "npm install; rm -rf /"))
  = CommandRejected CommandTooLong
  ∨ validateCommand (VStr (str "npm install; rm -rf /"))
    = CommandRejected (CommandBlocked "[;&|`$]").
Proof.
  apply (validateCommand_metacharacter _ 59).
  - apply (bool_decide_unpack _). vm_compute. exact I.
  - apply (bool_decide_unpack _). vm_compute. exact I.
Defined.

Lemma split_go_word (w : jsstring) :
  ∀ cur s,
    Forall (λ c, is_space c = false) w →
    split_go false cur (w ++ s) = split_go false (rev w ++ cur) s.
Proof.
  induction w as [|c w IH]; intros cur s Hw; [done|].
  apply Forall_cons in Hw as [Hc Hw]. simpl. rewrite Hc, IH by done.
  by rewrite <- app_assoc.
Qed.

Lemma split_go_resume (rest : jsstring) :
  word_start rest → split_go true [] rest = split_go false [] rest.
Proof. destruct rest as [|c rest]; simpl; [done|]. by intros ->. Qed.

Lemma split_go_gap (gap rest : jsstring) :
  Forall (λ c, is_space c = true) gap →
  word_start rest →
  split_go true [] (gap ++ rest) = split_go false [] rest.
Proof.
  intros Hgap Hrest. induction Hgap as [|c gap Hc _ IH]; simpl.
  - by apply split_go_resume.
  - by rewrite Hc.
Qed.

(** The tokens of a string are determined by [spaced] ... *)
Lemma spaced_split (s : jsstring) (toks : list jsstring) :
  spaced s toks → split_spaces s = toks.
Proof.
  unfold split_spaces. induction 1 as [w Hw | w gap rest toks Hw Hne Hgap Hrest _ IH].
  - rewrite <- (app_nil_r w) at 1. rewrite split_go_word by done. simpl.
    by rewrite app_nil_r, rev_involutive.
  - rewrite split_go_word by done. destruct gap as [|g gap]; [done|].
    apply Forall_cons in Hgap as [Hg Hgap]. simpl. rewrite Hg.
    by rewrite app_nil_r, rev_involutive, split_go_gap, IH.
Qed.

(** ... and [split] computes them. *)
Lemma split_go_spaced (s : jsstring) :
  (∀ cur, Forall (λ c, is_space c = false) cur →
          spaced (rev cur ++ s) (split_go false cur s))
  ∧ ∃ gap rest, s = gap ++ rest
      ∧ Forall (λ c, is_space c = true) gap
      ∧ word_start rest
      ∧ split_go true [] s = split_go false [] rest
      ∧ spaced rest (split_go false [] rest).
Proof.
  induction s as [|c s [IHA (gap & rest & Hs & Hgap & Hrest & Hgo & Hsp)]].
  - split.
    + intros cur Hcur. simpl. rewrite app_nil_r. apply spaced_last.
      apply Forall_forall. intros x Hx.
      apply list_elem_of_In, in_rev, list_elem_of_In in Hx.
      by apply (proj1 (Forall_forall _ _) Hcur).
    + exists [], []. repeat split; try done. by apply spaced_last.
  - assert (A : ∀ cur, Forall (λ c, is_space c = false) cur →
                spaced (rev cur ++ c :: s) (split_go false cur (c :: s))).
    { intros cur Hcur. simpl. destruct (is_space c) eqn:Hc.
      - rewrite Hgo. subst s.
        apply (spaced_gap (rev cur) (c :: gap) rest); try done.
        + apply Forall_forall. intros x Hx.
          apply list_elem_of_In, in_rev, list_elem_of_In in Hx.
          by apply (proj1 (Forall_forall _ _) Hcur).
        + by constructor.
      - specialize (IHA (c :: cur)). simpl in IHA.
        rewrite <- app_assoc in IHA. apply IHA. by constructor. }
    split; [exact A|].
    destruct (is_space c) eqn:Hc.
    + exists (c :: gap), rest. subst s. simpl. rewrite Hc.
      repeat split; try done. by constructor.
    + exists [], (c :: s). repeat split; try done.
      * simpl. by rewrite Hc.
      * apply (A [] (Forall_nil_2 _)).
Qed.

Lemma split_spaces_spaced (s : jsstring) : spaced s (split_spaces s).
Proof. apply (proj1 (split_go_spaced s) [] (Forall_nil_2 _)). Qed.

Lemma first_match_none {A} (table : list (A * regex)) (s : jsstring) :
  first_match table s = None
  ↔ ∀ a r, (a, r) ∈ table → ¬ found r s.
Proof.
  induction table as [|[a r] table IH]; simpl.
  - split; [|done]. intros _ a r H. by apply elem_of_nil in H.
  - destruct (regex_test r s) eqn:Ht.
    + split; [done|]. intros H. exfalso.
      apply (H a r); [left | by apply regex_test_found].
    + rewrite IH. apply regex_test_not_found in Ht. split.
      * intros H a' r' Hin. apply elem_of_cons in Hin as [Heq | Hin];
          [by injection Heq as -> -> | by apply (H a')].
      * intros H a' r' Hin. apply (H a'). by right.
Qed.

Lemma validateCommandString_accepts (s cmd : jsstring) (args : list jsstring) :
  validateCommandString s = CommandOk cmd args
  ↔ trim s ≠ []
    ∧ (length (trim s) ≤ 2000)%nat
    ∧ (∀ source r, (source, r) ∈ BLOCKED_PATTERNS → ¬ found r (trim s))
    ∧ spaced (trim s) (cmd :: args)
    ∧ cmd ∈ ALLOWED_COMMANDS.
Proof.
  unfold validateCommandString.
  rewrite <- first_match_none.
  pose proof (split_spaces_spaced (trim s)) as Hsp.
  destruct (trim s) as [|y t] eqn:Et.
  { simpl. split; [done | by intros [? _]]. }
  simpl is_nil. cbv iota.
  destruct (Nat.ltb_spec 2000 (length (y :: t))) as [Hlong | Hshort].
  { split; [done|]. intros (_ & Hlen & _). lia. }
  destruct (first_match BLOCKED_PATTERNS (y :: t)) as [source|] eqn:Hfm.
  { split; [done|]. by intros (_ & _ & ? & _). }
  destruct (split_spaces (y :: t)) as [|c a] eqn:Esplit.
  { inversion Hsp. }
  case_bool_decide as Hallowed.
  - split.
    + intros [= <- <-]. done.
    + intros (_ & _ & _ & Hsp' & _).
      apply spaced_split in Hsp'. rewrite Esplit in Hsp'.
      by injection Hsp' as -> ->.
  - split; [done|]. intros (_ & _ & _ & Hsp' & Hin).
    apply spaced_split in Hsp'. rewrite Esplit in Hsp'.
    injection Hsp' as -> ->. done.
Qed.

(** C1: a value is accepted exactly when it is a string whose trimmed form
    is not empty, has at most 2000 units, is matched by no deny-list pattern
    and has an allow-listed first white-space-delimited token; the result then
    holds that token as the executable and the later tokens, unchanged, as the
    arguments. ["npm install react"] gives ["npm"] with
    [["install"; "react"]]. *)
Theorem validateCommand_accepts :
  (∀ (v : JSValue) (cmd : jsstring) (args : list jsstring),
     validateCommand v = CommandOk cmd args
     ↔ ∃ s, v = VStr s
            ∧ trim s ≠ []
            ∧ (length (trim s) ≤ 2000)%nat
            ∧ (∀ source r, (source, r) ∈ BLOCKED_PATTERNS → ¬ found r (trim s))
            ∧ spaced (trim s) (cmd :: args)
            ∧ cmd ∈ ALLOWED_COMMANDS)
  ∧ validateCommand (VStr (str "npm install react"))
    = CommandOk (str "npm") [str "install"; str "react"].
Proof.
  split; [|reflexivity].
  intros v cmd args. split.
  - destruct v as [| |b|s|l|x]; try done.
    destruct s as [|x s]; [done|].
    intros H. exists (x :: s). split; [done|].
    by apply validateCommandString_accepts.
  - intros (s & -> & H).
    destruct s as [|x s]; [by destruct H as [? _]|].
    by apply validateCommandString_accepts.
Qed.

(** ** Package names *)

Lemma matches_lit (l : jsstring) :
  ∀ before m after, matches (lit_units l) before m after ↔ m = l.
Proof.
  induction l as [|c l IH]; intros before m after; simpl; [done|].
  split.
  - intros (m1 & m2 & -> & (x & -> & Hx) & H2).
    apply IH in H2 as ->. apply N.eqb_eq in Hx as ->. done.
  - intros ->. exists [c], l. split; [done|]. split.
    + exists c. by rewrite N.eqb_refl.
    + by apply IH.
Qed.

Lemma matches_star (p : N → bool) (before m after : jsstring) :
  matches (Rep p 0 None) before m after ↔ Forall (λ c, p c = true) m.
Proof. simpl. split; [by intros [? _] | intros H; repeat split; [done | lia]]. Qed.

Lemma matches_plus (p : N → bool) (before m after : jsstring) :
  matches (Rep p 1 None) before m after
  ↔ m ≠ [] ∧ Forall (λ c, p c = true) m.
Proof.
  simpl. split.
  - intros (H & Hlen & _). split; [|done]. intros ->. simpl in Hlen. lia.
  - intros [Hne H]. repeat split; [done|]. destruct m; [done | simpl; lia].
Qed.

Lemma matches_segment (first rest : N → bool) (r : regex)
    (before m after : jsstring) :
  matches (Cat (Class first) (Cat (Rep rest 0 None) r)) before m after
  ↔ ∃ seg m', m = seg ++ m' ∧ segment first rest seg
              ∧ matches r (rev seg ++ before) m' after.
Proof.
  split.
  - intros (m1 & m2 & -> & (c & -> & Hc) & (m3 & m4 & -> & H3 & H4)).
    apply matches_star in H3.
    exists (c :: m3), m4. split; [done|]. split; [by exists c, m3|].
    simpl in *. by rewrite <- app_assoc.
  - intros (seg & m' & -> & (c & tl & -> & Hc & Htl) & Hr).
    exists [c], (tl ++ m'). split; [done|]. split; [by exists c|].
    exists tl, m'. split; [done|]. split; [by apply matches_star|].
    simpl in *. by rewrite <- app_assoc in Hr.
Qed.

Lemma matches_scope (first rest : N → bool) (before m after : jsstring) :
  matches (seq [lit "@"; Class first; Rep rest 0 None; lit "/"]) before m after
  ↔ ∃ seg, m = str "@" ++ seg ++ str "/" ∧ segment first rest seg.
Proof.
  cbn [seq]. split.
  - intros (m1 & m2 & -> & H1 & H2).
    apply matches_lit in H1 as ->.
    apply matches_segment in H2 as (seg & m' & -> & Hseg & H).
    destruct H as (m3 & m4 & -> & H3 & ->).
    apply matches_lit in H3 as ->.
    exists seg. by rewrite app_nil_r.
  - intros (seg & -> & Hseg).
    exists (str "@"), (seg ++ str "/"). split; [done|].
    split; [by apply matches_lit|].
    apply matches_segment. exists seg, (str "/"). split; [done|].
    split; [done|]. exists (str "/"), []. split; [done|].
    split; [by apply matches_lit | done].
Qed.

Lemma matches_version (ver : N → bool) (before m after : jsstring) :
  matches (seq [lit "@"; Rep ver 1 None]) before m after
  ↔ ∃ spec, m = str "@" ++ spec ∧ spec ≠ []
            ∧ Forall (λ x, ver x = true) spec.
Proof.
  cbn [seq]. split.
  - intros (m1 & m2 & -> & H1 & (m3 & m4 & -> & H3 & ->)).
    apply matches_lit in H1 as ->. apply matches_plus in H3 as [Hne H3].
    exists m3. by rewrite app_nil_r.
  - intros (spec & -> & Hne & Hspec).
    exists (str "@"), spec. split; [done|]. split; [by apply matches_lit|].
    exists spec, []. split; [by rewrite app_nil_r|].
    split; [by apply matches_plus | done].
Qed.

(** The pattern is anchored at both ends: it is found in [t] exactly when
    the whole of [t] has the shape. *)
Lemma package_pattern_shape (t : jsstring) :
  found VALID_PACKAGE_PATTERN t ↔ package_shape t.
Proof.
  unfold VALID_PACKAGE_PATTERN, package_shape, shape, found. split.
  - intros (pre & m & post & -> & H). cbn [seq] in H.
    destruct H as (m1 & m2 & -> & [-> Hpre] & H).
    destruct H as (scope & m3 & -> & Hscope & H).
    apply matches_segment in H as (name & m4 & -> & Hname & H).
    destruct H as (version & m5 & -> & Hversion & H).
    destruct H as (m6 & m7 & -> & [-> Hpost] & ->).
    simpl in Hpost. subst post.
    assert (pre = []) as ->.
    { destruct pre as [|x pre]; [done|]. simpl in Hpre.
      by apply app_eq_nil in Hpre as [_ ?]. }
    exists scope, name, version. rewrite !app_nil_r. simpl.
    split; [done|]. split; [|split; [done|]].
    + destruct Hscope as [Hscope | ->]; [right | by left].
      by apply (matches_scope pkg_first pkg_rest) in Hscope.
    + destruct Hversion as [Hversion | ->]; [right | by left].
      by apply (matches_version pkg_version) in Hversion.
  - intros (scope & name & version & -> & Hscope & Hname & Hversion).
    exists [], (scope ++ name ++ version), []. rewrite app_nil_r.
    split; [done|]. cbn [seq].
    exists [], (scope ++ name ++ version). split; [done|]. split; [done|].
    exists scope, (name ++ version). split; [done|]. split.
    { destruct Hscope as [-> | Hscope]; [by right | left].
      by apply (matches_scope pkg_first pkg_rest). }
    apply matches_segment. exists name, version. split; [done|].
    split; [done|].
    exists version, []. split; [by rewrite app_nil_r|]. split.
    { destruct Hversion as [-> | Hversion]; [by right | left].
      by apply (matches_version pkg_version). }
    by exists [], [].
Qed.

Lemma validatePackageString_shape (s : jsstring) :
  validatePackageString s = true
  ↔ (length (trim s) ≤ 214)%nat ∧ package_shape (trim s).
Proof.
  unfold validatePackageString.
  rewrite <- package_pattern_shape, <- regex_test_found.
  destruct (trim s) as [|y t] eqn:Et.
  { simpl. split; [done|]. intros [_ H]. by vm_compute in H. }
  simpl is_nil. rewrite orb_false_l.
  destruct (Nat.ltb_spec 214 (length (y :: t))) as [Hlong | Hshort].
  - split; [done|]. intros [Hlen _]. lia.
  - split; [by intros H | by intros [_ H]].
Qed.

Lemma shape_alphabet (first rest ver : N → bool) (t : jsstring) :
  shape first rest ver t →
  Forall (λ c, first c = true ∨ rest c = true ∨ ver c = true
               ∨ c = 64 ∨ c = 47) t.
Proof.
  assert (Hseg : ∀ seg, segment first rest seg →
            Forall (λ c, first c = true ∨ rest c = true ∨ ver c = true
                         ∨ c = 64 ∨ c = 47) seg).
  { intros seg (c & tl & -> & Hc & Htl). constructor; [by left|].
    eapply Forall_impl; [exact Htl|]. simpl. tauto. }
  intros (scope & name & version & -> & Hscope & Hname & Hversion).
  apply Forall_app. split; [|apply Forall_app; split].
  - destruct Hscope as [-> | (seg & -> & Hs)]; [done|].
    constructor; [tauto|]. apply Forall_app. split; [by apply Hseg|].
    constructor; [tauto | done].
  - by apply Hseg.
  - destruct Hversion as [-> | (spec & -> & _ & Hv)]; [done|].
    constructor; [tauto|]. eapply Forall_impl; [exact Hv|]. simpl. tauto.
Qed.

(** C8, as stated, fails in both directions: [".a"] is made of the listed
    characters but is rejected, because a segment may not begin with a dot or
    an underscore; ["react@BETA"] is accepted although its version holds
    letters, because the version class is [\w] with dots, hyphens and the
    range operators. *)
Lemma stated_package_rule_fails :
  ¬ stated_package_rule (str ".a") ∧ ¬ stated_package_rule (str "react@BETA").
Proof.
  split.
  - intros [_ H].
    assert (Hv : validatePackageName (VStr (str ".a")) = true).
    { apply H. split; [vm_compute; lia|].
      exists [], (str ".a"), []. split; [reflexivity|].
      split; [by left|]. split; [|by left].
      exists 46, (str "a"). split; [reflexivity|]. split; [reflexivity|].
      by repeat constructor. }
    discriminate Hv.
  - intros [H _].
    destruct (H eq_refl) as [_ Hshape].
    apply shape_alphabet in Hshape.
    assert (Hin : 66 ∈ trim (str "react@BETA"))
      by (apply (bool_decide_unpack _); vm_compute; exact I).
    apply (proj1 (Forall_forall _ _) Hshape) in Hin.
    destruct Hin as [Hc | [Hc | [Hc | [Hc | Hc]]]]; discriminate Hc.
Qed.

(** C8 (amended): the accepted values are exactly the strings whose trimmed
    form has at most 214 units and is an optional scope ["@" seg "/"], a name
    segment and an optional version ["@" spec], where a segment begins with a
    lower-case alphanumeric, [-] or [~] and goes on with lower-case
    alphanumerics and [-], [.], [_], [~], and [spec] is one or more word
    characters, dots, hyphens and range operators [^ ~ > = < |]. The listed
    samples are accepted and rejected as the specification says. *)
Theorem validatePackageName_grammar :
  (∀ v : JSValue,
     validatePackageName v = true
     ↔ ∃ s, v = VStr s ∧ (length (trim s) ≤ 214)%nat ∧ package_shape (trim s))
  ∧ (validatePackageName (VStr (str "react")) = true
     ∧ validatePackageName (VStr (str "@types/react")) = true
     ∧ validatePackageName (VStr (str "react@^18.0.0")) = true)
  ∧ (validatePackageName (VStr (str "")) = false
     ∧ validatePackageName (VStr (str "UPPERCASE")) = false
     ∧ validatePackageName (VStr (str "../../../etc/passwd")) = false
     ∧ validatePackageName VNull = false
     ∧ validatePackageName VUndefined = false
     ∧ (∀ b, validatePackageName (VBool b) = false)
     ∧ (∀ l, validatePackageName (VArr l) = false)
     ∧ (∀ x, validatePackageName (VOther x) = false)).
Proof.
  split; [|by repeat split].
  intros v. split.
  - destruct v as [| |b|s|l|x]; try done.
    destruct s as [|c s]; [done|]. intros H.
    exists (c :: s). split; [done|]. by apply validatePackageString_shape.
  - intros (s & -> & H). apply validatePackageString_shape in H.
    destruct s as [|c s]; [|done]. by vm_compute in H.
Qed.

(** ** URL validator *)

Section UrlValidator.

(** The platform's [URL] parser, whatever it answers. *)
Variable parseURL : jsstring → option URL.

(** What the validator does with a parsed URL. *)
Lemma validateUrl_accepts (input : jsstring) (u : URL) :
  validateUrl parseURL input = UrlOk u
  ↔ parseURL input = Some u
    ∧ protocol u ∈ [str "http:"; str "https:"]
    ∧ (toLowerCase (hostname u) ∉ BLOCKED_HOSTNAMES)
    ∧ (∀ rule r, (rule, r) ∈ BLOCKED_HOSTNAME_PATTERNS
                 → ¬ found r (toLowerCase (hostname u))).
Proof.
  unfold validateUrl. rewrite <- first_match_none.
  destruct (parseURL input) as [url|]; [|split; [done | by intros [? _]]].
  case_bool_decide as Hp; cbn [negb]; cbv beta iota zeta.
  - case_bool_decide as Hb.
    + split; [done|]. intros ([= ->] & _ & ? & _). done.
    + destruct (first_match BLOCKED_HOSTNAME_PATTERNS (toLowerCase (hostname url)))
        as [rule|] eqn:Hfm; cbv beta iota zeta.
      * split; [done|]. intros ([= ->] & _ & _ & ?). congruence.
      * split; [by intros [= ->] | by intros ([= ->] & _)].
  - split; [done|]. intros ([= ->] & ? & _). done.
Qed.

(** A parsed URL with another scheme ([ftp:], [javascript:], [file:]) is
    rejected for its protocol. *)
Lemma validateUrl_protocol (input : jsstring) (u : URL) :
  parseURL input = Some u →
  protocol u ∉ [str "http:"; str "https:"] →
  validateUrl parseURL input = UrlRejected (InvalidProtocol (protocol u)).
Proof.
  intros Hparse Hp. unfold validateUrl. rewrite Hparse.
  by rewrite bool_decide_eq_false_2.
Qed.

(** A parsed [https:] URL with host ["example.com"] is returned as it is. *)
Lemma validateUrl_example (input : jsstring) (u : URL) :
  parseURL input = Some u →
  protocol u = str "https:" →
  hostname u = str "example.com" →
  validateUrl parseURL input = UrlOk u.
Proof.
  intros Hparse Hp Hh. unfold validateUrl. rewrite Hparse, Hp, Hh. reflexivity.
Qed.

(** C3, at the failing input: when the parser returns an [http:] or [https:]
    URL whose host is a unique-local IPv6 address outside [fc00::/8], or any
    unique-local or link-local address in the bracketed form in which [URL]
    reports IPv6 hosts, the validator accepts it. *)
Theorem validateUrl_unique_local_accepted (input : jsstring) (u : URL) :
  parseURL input = Some u →
  protocol u ∈ [str "http:"; str "https:"] →
  hostname u ∈ [str "fd00::1"; str "[fd00::1]"; str "[fc00::1]"; str "[fe80::1]"] →
  validateUrl parseURL input = UrlOk u.
Proof.
  intros Hparse Hp Hh. unfold validateUrl. rewrite Hparse.
  rewrite bool_decide_eq_true_2 by done. simpl.
  repeat (apply elem_of_cons in Hh as [-> | Hh]; [reflexivity|]).
  by apply elem_of_nil in Hh.
Qed.

End UrlValidator.

Lemma validateUrl_unique_local_accepted_witness :
  validateUrl (λ _, Some {| protocol := str "http:"; hostname := str "[fd00::1]" |})
    (str "http://[fd00::1]/")
  = UrlOk {| protocol := str "http:"; hostname := str "[fd00::1]" |}.
Proof.
  apply validateUrl_unique_local_accepted.
  - reflexivity.
  - apply (bool_decide_unpack _). vm_compute. exact I.
  - apply (bool_decide_unpack _). vm_compute. exact I.
Defined.

(** * Further properties

    ** White space and [trim] *)

Lemma drop_spaces_split (s : jsstring) :
  ∃ lead, s = lead ++ drop_spaces s
          ∧ Forall (λ c, is_space c = true) lead
          ∧ word_start (drop_spaces s).
Proof.
  induction s as [|c s (lead & Hs & Hlead & Hstart)]; simpl.
  - by exists [].
  - destruct (is_space c) eqn:Hc.
    + exists (c :: lead). split; [by rewrite Hs at 1|]. split; [by constructor | done].
    + by exists [].
Qed.

Lemma drop_spaces_fixed (s : jsstring) : word_start s → drop_spaces s = s.
Proof. destruct s as [|c s]; simpl; [done|]. by intros ->. Qed.

Lemma word_start_prefix (a b : jsstring) :
  word_start (a ++ b) → word_start a.
Proof. by destruct a. Qed.

(** [trim] removes a run of white space at each end and nothing else, and
    what it returns neither begins nor ends with white space. *)
Lemma trim_split (s : jsstring) :
  ∃ lead trail,
    s = lead ++ trim s ++ trail
    ∧ Forall (λ c, is_space c = true) lead
    ∧ Forall (λ c, is_space c = true) trail
    ∧ word_start (trim s)
    ∧ word_start (rev (trim s)).
Proof.
  unfold trim.
  destruct (drop_spaces_split s) as (lead & Hs & Hlead & Hd).
  destruct (drop_spaces_split (rev (drop_spaces s))) as (tr & Hr & Htr & Hstart).
  set (d := drop_spaces s) in *. set (r := drop_spaces (rev d)) in *.
  assert (Hd' : d = rev r ++ rev tr).
  { rewrite <- (rev_involutive d), Hr. by rewrite rev_app_distr. }
  exists lead, (rev tr). rewrite <- Hd'. split; [done|].
  split; [done|]. split; [by apply Forall_rev|].
  split; [|by rewrite rev_involutive].
  rewrite Hd' in Hd. by apply word_start_prefix in Hd.
Qed.

Lemma trim_idempotent (s : jsstring) : trim (trim s) = trim s.
Proof.
  destruct (trim_split s) as (_ & _ & _ & _ & _ & H1 & H2).
  unfold trim at 1. rewrite (drop_spaces_fixed _ H1), (drop_spaces_fixed _ H2).
  apply rev_involutive.
Qed.

Lemma trim_length (s : jsstring) : (length (trim s) ≤ length s)%nat.
Proof.
  destruct (trim_split s) as (lead & trail & Hs & _).
  rewrite Hs at 2. rewrite !length_app. lia.
Qed.

Lemma trim_elem (c : N) (s : jsstring) : c ∈ trim s → c ∈ s.
Proof.
  destruct (trim_split s) as (lead & trail & Hs & _). intros H.
  rewrite Hs, !elem_of_app. tauto.
Qed.

Lemma drop_spaces_app (pre x : jsstring) :
  x ≠ [] → word_start x → drop_spaces (pre ++ x) = drop_spaces pre ++ x.
Proof.
  intros Hne Hx. induction pre as [|c pre IH]; simpl.
  - by apply drop_spaces_fixed.
  - by destruct (is_space c).
Qed.

Lemma drop_spaces_suffix (s : jsstring) : drop_spaces s `suffix_of` s.
Proof.
  destruct (drop_spaces_split s) as (lead & Hs & _). by exists lead.
Qed.

(** Trimming around a run that neither begins nor ends with white space
    leaves the run where it is. *)
Lemma trim_around (pre w post : jsstring) :
  w ≠ [] → word_start w → word_start (rev w) →
  trim (pre ++ w ++ post) = drop_spaces pre ++ w ++ trim_right post.
Proof.
  intros Hne Hw Hrw. unfold trim, trim_right.
  rewrite (drop_spaces_app pre (w ++ post)).
  - rewrite !rev_app_distr, <- app_assoc.
    rewrite (drop_spaces_app (rev post) (rev w ++ rev (drop_spaces pre))).
    + by rewrite !rev_app_distr, !rev_involutive, <- app_assoc.
    + destruct (rev w) eqn:E; [|done].
      apply (f_equal (@rev N)) in E. rewrite rev_involutive in E. done.
    + destruct (rev w) eqn:E; [|done].
      apply (f_equal (@rev N)) in E. rewrite rev_involutive in E. done.
  - by destruct w.
  - by destruct w.
Qed.

(** Where a word character stood next to the run before trimming, one still
    stands after it, and the other way round. *)
Lemma word_at_drop_spaces (pre : jsstring) :
  word_at (rev pre) = false → word_at (rev (drop_spaces pre)) = false.
Proof.
  destruct (drop_spaces_split pre) as (lead & Hs & _ & _).
  destruct (drop_spaces pre) as [|c d] eqn:E using rev_ind; [done|].
  intros H. rewrite Hs in H. rewrite app_assoc, rev_app_distr in H.
  by rewrite rev_app_distr.
Qed.

Lemma word_at_trim_right (post : jsstring) :
  word_at post = false → word_at (trim_right post) = false.
Proof.
  unfold trim_right.
  destruct (drop_spaces_split (rev post)) as (lead & Hs & _ & _).
  apply (f_equal (@rev N)) in Hs. rewrite rev_involutive, rev_app_distr in Hs.
  destruct (rev (drop_spaces (rev post))) as [|c r]; [done|].
  intros H. by rewrite Hs in H.
Qed.

Lemma found_lit (l s : jsstring) : found (lit_units l) s ↔ occurs_in l s.
Proof.
  unfold found, occurs_in. split.
  - intros (pre & m & post & -> & H). apply matches_lit in H as ->. eauto.
  - intros (a & b & ->). exists a, l, b. split; [done|]. by apply matches_lit.
Qed.

Lemma found_whole_word (w : string) (pre post : jsstring) :
  word_at (rev pre) = false →
  word_at (str w) = true →
  word_at (rev (str w)) = true →
  word_at post = false →
  found (whole_word w) (pre ++ str w ++ post).
Proof.
  intros Hpre Hw Hrw Hpost. exists pre, (str w), post. split; [done|].
  assert (Hne : str w ≠ []) by (by destruct (str w)).
  exists [], (str w). split; [done|]. split.
  - split; [done|]. rewrite Hpre.
    destruct (str w) as [|c l]; [done|]. simpl in *. by rewrite Hw.
  - exists (str w), []. split; [by rewrite app_nil_r|].
    split; [by apply matches_lit|]. split; [done|]. simpl.
    rewrite Hpost. destruct (rev (str w)) as [|c l]; [done|].
    simpl in *. by rewrite Hrw.
Qed.

(** A deny-list entry found in the trimmed string always rejects. *)
Lemma blocked_rejected (source : string) (r : regex) (s : jsstring) :
  (source, r) ∈ BLOCKED_PATTERNS →
  found r (trim s) →
  ∃ e, validateCommand (VStr s) = CommandRejected e.
Proof.
  intros Hin Hfound.
  destruct (validateCommand (VStr s)) as [cmd args|e] eqn:E; [|by exists e].
  destruct s as [|x s]; [done|]. simpl in E.
  apply validateCommandString_accepts in E as (_ & _ & Hnone & _).
  by destruct (Hnone source r Hin).
Qed.

Lemma drop_spaces_blank (s : jsstring) :
  Forall (λ c, is_space c = true) s → drop_spaces s = [].
Proof. induction 1 as [|c s Hc _ IH]; simpl; [done|]. by rewrite Hc. Qed.

Lemma trim_padding (lead s trail : jsstring) :
  Forall (λ c, is_space c = true) lead →
  Forall (λ c, is_space c = true) trail →
  trim (lead ++ s ++ trail) = trim s.
Proof.
  intros Hlead Htrail.
  destruct (trim_split s) as (l & r & Hs & Hl & Hr & Hstart & Hend).
  assert (Hpre : drop_spaces (lead ++ l) = [])
    by (apply drop_spaces_blank, Forall_app; done).
  assert (Hpost : trim_right (r ++ trail) = []).
  { unfold trim_right. rewrite drop_spaces_blank; [done|].
    by apply Forall_rev, Forall_app. }
  destruct (trim s) as [|c t] eqn:Et.
  - rewrite Hs. simpl. unfold trim.
    assert (Hb : drop_spaces (lead ++ (l ++ r) ++ trail) = []).
    { apply drop_spaces_blank. repeat (apply Forall_app; split); done. }
    by rewrite Hb.
  - rewrite Hs at 1.
    replace (lead ++ (l ++ (c :: t) ++ r) ++ trail)
      with ((lead ++ l) ++ (c :: t) ++ (r ++ trail))
      by (by rewrite <- !app_assoc).
    rewrite trim_around by done. rewrite Hpre, Hpost. simpl.
    by rewrite app_nil_r.
Qed.

(** X1: white space around a command never changes the verdict: padding a
    command that is not blank gives the same result, whether accepted with
    the same executable and arguments or rejected with the same error. *)
Theorem validateCommand_padding (lead s trail : jsstring) :
  Forall (λ c, is_space c = true) lead →
  Forall (λ c, is_space c = true) trail →
  trim s ≠ [] →
  validateCommand (VStr (lead ++ s ++ trail)) = validateCommand (VStr s).
Proof.
  intros Hlead Htrail Hne.
  assert (Ht : trim (lead ++ s ++ trail) = trim s) by by apply trim_padding.
  assert (Hs : s ≠ []) by (intros ->; done).
  assert (Hp : lead ++ s ++ trail ≠ []).
  { intros H. apply app_eq_nil in H as [_ H]. by apply app_eq_nil in H as [? _]. }
  destruct s as [|x s]; [done|].
  destruct (lead ++ (x :: s) ++ trail) as [|y p] eqn:E; [done|].
  unfold validateCommand, validateCommandString. by rewrite Ht.
Qed.

Lemma validateCommand_padding_witness :
  validateCommand (VStr (str "  " ++ str "ls -la" ++ str " "))
  = validateCommand (VStr (str "ls -la")).
Proof.
  apply validateCommand_padding.
  - by repeat constructor.
  - by repeat constructor.
  - discriminate.
Defined.

Lemma spaced_within (t : jsstring) (toks : list jsstring) :
  spaced t toks → ∀ tok, tok ∈ toks → occurs_in tok t.
Proof.
  induction 1 as [w Hw | w gap rest toks Hw Hne Hgap Hrest _ IH]; intros tok Hin.
  - apply list_elem_of_singleton in Hin as ->. exists [], []. by rewrite app_nil_r.
  - apply elem_of_cons in Hin as [-> | Hin].
    + by exists [], (gap ++ rest).
    + destruct (IH tok Hin) as (a & b & ->).
      exists (w ++ gap ++ a), b. by rewrite <- !app_assoc.
Qed.

Lemma spaced_no_space (t : jsstring) (toks : list jsstring) :
  spaced t toks → Forall (Forall (λ c, is_space c = false)) toks.
Proof. induction 1; by repeat constructor. Qed.

Lemma spaced_nonempty (t : jsstring) (toks : list jsstring) :
  spaced t toks → t ≠ [] → word_start t → word_start (rev t) →
  Forall (λ tok, tok ≠ []) toks.
Proof.
  induction 1 as [w Hw | w gap rest toks Hw Hne Hgap Hrest Hsp IH];
    intros Ht Hstart Hend.
  - by repeat constructor.
  - assert (Hw' : w ≠ []).
    { intros ->. destruct gap as [|g gap]; [done|].
      apply Forall_cons in Hgap as [Hg _]. simpl in Hstart. congruence. }
    assert (Hrest' : rest ≠ []).
    { intros ->. rewrite app_nil_r, rev_app_distr in Hend.
      destruct gap as [|g gap _] using rev_ind; [done|].
      apply Forall_app in Hgap as [_ Hg]. apply Forall_cons in Hg as [Hg _].
      rewrite rev_app_distr in Hend. simpl in Hend. congruence. }
    constructor; [done|]. apply IH; [done | done |].
    rewrite !rev_app_distr in Hend.
    destruct (rev rest) as [|c r] eqn:E; [done|].
    by simpl in Hend.
Qed.

Lemma occurs_in_trans (p tok t : jsstring) :
  occurs_in p tok → occurs_in tok t → occurs_in p t.
Proof.
  intros (a & b & ->) (c & d & ->). exists (c ++ a), (b ++ d).
  by rewrite <- !app_assoc.
Qed.

Lemma occurs_in_elem (c : N) (tok t : jsstring) :
  c ∈ tok → occurs_in tok t → c ∈ t.
Proof. intros Hc (a & b & ->). rewrite !elem_of_app. tauto. Qed.

Lemma fragment_listed (p : string) :
  p ∈ DENIED_FRAGMENTS →
  (∃ source, (source, lit p) ∈ BLOCKED_PATTERNS)
  ∧ str p ≠ [] ∧ word_start (str p) ∧ word_start (rev (str p)).
Proof.
  intros H. unfold DENIED_FRAGMENTS, BLOCKED_PATTERNS in *.
  repeat (apply elem_of_cons in H as [-> | H];
          [split; [eexists;
                   repeat first [apply list_elem_of_here | apply list_elem_of_further]
                  | done]|]).
  by apply elem_of_nil in H.
Qed.

Lemma word_listed (w : string) :
  w ∈ DANGEROUS_WORDS →
  (∃ source, (source, whole_word w) ∈ BLOCKED_PATTERNS)
  ∧ str w ≠ [] ∧ word_at (str w) = true ∧ word_at (rev (str w)) = true
  ∧ word_start (str w) ∧ word_start (rev (str w)).
Proof.
  intros H. unfold DANGEROUS_WORDS, BLOCKED_PATTERNS in *.
  repeat (apply elem_of_cons in H as [-> | H];
          [split; [eexists;
                   repeat first [apply list_elem_of_here | apply list_elem_of_further]
                  | done]|]).
  by apply elem_of_nil in H.
Qed.

Lemma accepted_tokens_facts (v : JSValue) (cmd : jsstring)
    (args : list jsstring) :
  validateCommand v = CommandOk cmd args →
  cmd ∈ ALLOWED_COMMANDS
  ∧ Forall (λ tok,
              tok ≠ []
              ∧ Forall (λ c, is_space c = false ∧ c ∉ str ";|&$`") tok
              ∧ ∀ p, p ∈ DENIED_FRAGMENTS → ¬ occurs_in (str p) tok)
      (cmd :: args).
Proof.
  intros H. destruct v as [| |b|s|l|x]; try done.
  destruct s as [|x s]; [done|]. simpl in H.
  apply validateCommandString_accepts in H as (Hne & _ & Hnone & Hsp & Hcmd).
  split; [done|].
  destruct (trim_split (x :: s)) as (_ & _ & _ & _ & _ & Hstart & Hend).
  pose proof (spaced_nonempty _ _ Hsp Hne Hstart Hend) as Hn.
  pose proof (spaced_no_space _ _ Hsp) as Hs.
  pose proof (spaced_within _ _ Hsp) as Hw.
  apply Forall_forall. intros tok Htok.
  split; [by apply (proj1 (Forall_forall _ _) Hn)|]. split.
  - apply Forall_forall. intros c Hc. split.
    + apply (proj1 (Forall_forall _ _) Hs) in Htok.
      by apply (proj1 (Forall_forall _ _) Htok).
    + intros Hmeta. apply metacharacter_class in Hmeta as [_ Hcls].
      apply (Hnone "[;&|`$]"%string (Class (one_of ";&|`$"))); [left|].
      apply (found_class _ c); [|done].
      by apply (occurs_in_elem c tok), Hw.
  - intros p Hp Hocc. apply fragment_listed in Hp as [[source Hin] _].
    apply (Hnone source (lit p) Hin). apply found_lit.
    by apply (occurs_in_trans _ tok), Hw.
Qed.

(** X2: what an accepted command hands to the executor: an allow-listed
    executable and tokens that are never empty and hold no white space, no
    shell metacharacter and none of the denied path fragments. *)
Theorem validateCommand_accepted_tokens (v : JSValue) (cmd : jsstring)
    (args : list jsstring) :
  validateCommand v = CommandOk cmd args →
  cmd ∈ ALLOWED_COMMANDS
  ∧ Forall (λ tok,
              tok ≠ []
              ∧ Forall (λ c, is_space c = false ∧ c ∉ str ";|&$`") tok
              ∧ ∀ p, p ∈ DENIED_FRAGMENTS → ¬ occurs_in (str p) tok)
      (cmd :: args).
Proof. apply accepted_tokens_facts. Qed.

Lemma validateCommand_accepted_tokens_witness :
  str "npm" ∈ ALLOWED_COMMANDS
  ∧ Forall (λ tok,
              tok ≠ []
              ∧ Forall (λ c, is_space c = false ∧ c ∉ str ";|&$`") tok
              ∧ ∀ p, p ∈ DENIED_FRAGMENTS → ¬ occurs_in (str p) tok)
      [str "npm"; str "install"; str "react"].
Proof.
  apply (validateCommand_accepted_tokens (VStr (str "npm install react"))).
  reflexivity.
Defined.

(** X3: a string whose first white-space-delimited token, after trimming, is
    not on the allow-list is rejected whatever follows the token. *)
Theorem validateCommand_unknown_executable (s cmd : jsstring)
    (args : list jsstring) :
  spaced (trim s) (cmd :: args) →
  cmd ∉ ALLOWED_COMMANDS →
  ∃ e, validateCommand (VStr s) = CommandRejected e.
Proof.
  intros Hsp Hcmd.
  destruct (validateCommand (VStr s)) as [c a|e] eqn:E; [|by exists e].
  destruct s as [|x s]; [done|]. simpl in E.
  apply validateCommandString_accepts in E as (_ & _ & _ & Hsp' & Hin).
  apply spaced_split in Hsp, Hsp'. rewrite Hsp in Hsp'.
  by injection Hsp' as -> ->.
Qed.

Lemma validateCommand_unknown_executable_witness :
  ∃ e, validateCommand (VStr (str "python3 script.py")) = CommandRejected e.
Proof.
  apply (validateCommand_unknown_executable _ (str "python3") [str "script.py"]).
  - change (trim (str "python3 script.py"))
      with (str "python3" ++ str " " ++ str "script.py").
    apply spaced_gap; try done.
    + by repeat constructor.
    + by repeat constructor.
    + apply spaced_last. by repeat constructor.
  - intros H. apply (bool_decide_pack _) in H. by vm_compute in H.
Defined.

(** X4: a string that holds ["../"], ["/etc/"], ["/proc/"] or ["/sys/"]
    anywhere is rejected. *)
Theorem validateCommand_denied_fragment (p : string) (s : jsstring) :
  p ∈ DENIED_FRAGMENTS →
  occurs_in (str p) s →
  ∃ e, validateCommand (VStr s) = CommandRejected e.
Proof.
  intros Hp (a & b & ->).
  apply fragment_listed in Hp as ([source Hin] & Hne & Hstart & Hend).
  apply (blocked_rejected source (lit p)); [done|].
  rewrite trim_around by done. apply found_lit. by eexists _, _.
Qed.

Lemma validateCommand_denied_fragment_witness :
  ∃ e, validateCommand (VStr (str "cat /etc/passwd")) = CommandRejected e.
Proof.
  apply (validateCommand_denied_fragment "/etc/").
  - apply (bool_decide_unpack _). vm_compute. exact I.
  - by exists (str "cat "), (str "passwd").
Defined.

(** X5: a string that holds one of the named utilities as a whole word, that
    is with no word character directly before or after it, is rejected,
    wherever the word stands and whatever the executable is. *)
Theorem validateCommand_dangerous_word (w : string) (pre post : jsstring) :
  w ∈ DANGEROUS_WORDS →
  word_at (rev pre) = false →
  word_at post = false →
  ∃ e, validateCommand (VStr (pre ++ str w ++ post)) = CommandRejected e.
Proof.
  intros Hw Hpre Hpost.
  apply word_listed in Hw as ([source Hin] & Hne & Hw1 & Hw2 & Hs1 & Hs2).
  apply (blocked_rejected source (whole_word w)); [done|].
  rewrite trim_around by done.
  apply found_whole_word; try done.
  - by apply word_at_drop_spaces.
  - by apply word_at_trim_right.
Qed.

Lemma validateCommand_dangerous_word_witness :
  ∃ e, validateCommand (VStr (str "echo x && " ++ str "curl" ++ str " evil.sh"))
       = CommandRejected e.
Proof.
  apply validateCommand_dangerous_word.
  - apply (bool_decide_unpack _). vm_compute. exact I.
  - reflexivity.
  - reflexivity.
Defined.

(** ** Input validation helpers *)

Lemma trim_nonempty_fixed (s : jsstring) :
  s ≠ [] → word_start s → word_start (rev s) → trim s = s.
Proof.
  intros Hne H1 H2.
  pose proof (trim_around [] s [] Hne H1 H2) as H.
  unfold trim_right in H. simpl in H. by rewrite !app_nil_r in H.
Qed.

(** X6: the value [validateString] returns is normal: it is not empty,
    neither begins nor ends with white space, is no longer than the limit,
    and validating it again returns it unchanged. *)
Theorem validateString_normal (value : JSValue) (fieldName : jsstring)
    (maxLength : Z) (r : jsstring) :
  validateString value fieldName maxLength = StringOk r →
  r ≠ [] ∧ word_start r ∧ word_start (rev r)
  ∧ (Z.of_nat (length r) ≤ maxLength)%Z
  ∧ validateString (VStr r) fieldName maxLength = StringOk r.
Proof.
  destruct value as [| |b|s|l|x]; try done. simpl.
  destruct (trim s) as [|c t] eqn:Et; [done|]. simpl.
  destruct (Z.ltb_spec maxLength (Z.of_nat (length s))) as [Hlong | Hfit]; [done|].
  intros [= <-].
  destruct (trim_split s) as (_ & _ & _ & _ & _ & Hstart & Hend).
  pose proof (trim_length s) as Hlen. rewrite Et in Hstart, Hend, Hlen.
  split; [done|]. split; [done|]. split; [done|]. split; [lia|].
  rewrite (trim_nonempty_fixed (c :: t)) by done. simpl.
  destruct (Z.ltb_spec maxLength (Z.of_nat (S (length t)))); [|done].
  simpl in Hlen. lia.
Qed.

Lemma validateString_normal_witness :
  str "hello" ≠ [] ∧ word_start (str "hello") ∧ word_start (rev (str "hello"))
  ∧ (Z.of_nat (length (str "hello")) ≤ 100)%Z
  ∧ validateString (VStr (str "hello")) (str "test") 100 = StringOk (str "hello").
Proof.
  apply (validateString_normal (VStr (str "  hello  ")) (str "test") 100).
  reflexivity.
Defined.

(** The limit of [validateString] applies to the text as sent, not to the
    trimmed text it returns: a value is accepted exactly when it is a string
    that is not blank and whose untrimmed length is within the limit. *)
Lemma validateString_accepts (value : JSValue) (fieldName : jsstring)
    (maxLength : Z) :
  (∃ r, validateString value fieldName maxLength = StringOk r)
  ↔ ∃ s, value = VStr s ∧ trim s ≠ [] ∧ (Z.of_nat (length s) ≤ maxLength)%Z.
Proof.
  split.
  - intros [r H]. destruct value as [| |b|s|l|x]; try done. simpl in H.
    exists s. split; [done|].
    destruct (trim s) as [|c t]; [done|]. simpl in H.
    destruct (Z.ltb_spec maxLength (Z.of_nat (length s))); [done|].
    split; [done | lia].
  - intros (s & -> & Hne & Hlen). simpl.
    destruct (trim s) as [|c t]; [done|]. simpl.
    destruct (Z.ltb_spec maxLength (Z.of_nat (length s))); [lia|]. eauto.
Qed.

Lemma split_on_go_head (s cur : jsstring) :
  ∃ rest, split_on_go 44 cur s = (rev cur ++ before_comma s) :: rest.
Proof.
  revert cur. induction s as [|c s IH]; intros cur; simpl.
  - exists []. by rewrite app_nil_r.
  - destruct (c =? 44).
    + eexists. by rewrite app_nil_r.
    + destruct (IH (c :: cur)) as [rest ->]. exists rest.
      simpl. by rewrite <- app_assoc.
Qed.

Lemma before_comma_no_comma (s : jsstring) : 44 ∉ before_comma s.
Proof.
  induction s as [|c s IH]; simpl; [apply not_elem_of_nil|].
  destruct (N.eqb_spec c 44) as [->|Hc]; [apply not_elem_of_nil|].
  rewrite not_elem_of_cons. split; [congruence | done].
Qed.

Lemma before_comma_app (a rest : jsstring) :
  44 ∉ a → before_comma (a ++ 44 :: rest) = a.
Proof.
  induction a as [|c a IH]; simpl; [done|].
  rewrite not_elem_of_cons. intros [Hc Ha].
  destruct (N.eqb_spec c 44); [congruence|]. by rewrite IH.
Qed.

Lemma getClientId_unfold (forwarded realIp : option jsstring) :
  getClientId forwarded realIp
  = or_else (trim ∘ before_comma <$> forwarded)
      (or_else realIp (str "unknown")).
Proof.
  unfold getClientId. destruct forwarded as [f|]; [|done]. simpl.
  unfold split_on. destruct (split_on_go_head f []) as [rest ->]. done.
Qed.

Lemma or_else_nonempty (x : option jsstring) (y : jsstring) :
  y ≠ [] → or_else x y ≠ [].
Proof. intros Hy. by destruct x as [[|c s]|]. Qed.

(** X7: the client identifier is never empty. When the text before the first
    comma of [x-forwarded-for] is not blank, the identifier is that text
    trimmed, so it holds no comma and no white space at either end;
    otherwise it is [x-real-ip] as sent when that is present and not empty,
    and ["unknown"] when not. *)
Theorem getClientId_cases (forwarded realIp : option jsstring) :
  getClientId forwarded realIp ≠ []
  ∧ (∀ f, forwarded = Some f → trim (before_comma f) ≠ [] →
       getClientId forwarded realIp = trim (before_comma f)
       ∧ (44 ∉ getClientId forwarded realIp)
       ∧ word_start (getClientId forwarded realIp)
       ∧ word_start (rev (getClientId forwarded realIp)))
  ∧ ((forwarded = None ∨ ∃ f, forwarded = Some f ∧ trim (before_comma f) = []) →
       getClientId forwarded realIp = or_else realIp (str "unknown")).
Proof.
  rewrite getClientId_unfold. split; [|split].
  - apply or_else_nonempty, or_else_nonempty. discriminate.
  - intros f -> Hne.
    assert (Hres : or_else (trim ∘ before_comma <$> Some f)
                     (or_else realIp (str "unknown"))
                   = trim (before_comma f)).
    { simpl. by destruct (trim (before_comma f)). }
    rewrite Hres.
    destruct (trim_split (before_comma f)) as (_ & _ & _ & _ & _ & H1 & H2).
    split; [done|]. split; [|done].
    intros H. apply trim_elem in H. by apply before_comma_no_comma in H.
  - intros [-> | (f & -> & Hf)]; [done|]. simpl. by rewrite Hf.
Qed.

(** X8: only the left-most entry of [x-forwarded-for] counts: whatever
    follows the first comma, and whatever [x-real-ip] holds, the identifier
    is the first entry, trimmed. *)
Theorem getClientId_leftmost (id rest : jsstring) (realIp : option jsstring) :
  44 ∉ id →
  trim id ≠ [] →
  getClientId (Some (id ++ 44 :: rest)) realIp = trim id.
Proof.
  intros Hid Hne. rewrite getClientId_unfold. simpl.
  rewrite before_comma_app by done.
  by destruct (trim id).
Qed.

Lemma getClientId_leftmost_witness :
  getClientId (Some (str " 203.0.113.7 " ++ 44 :: str " 10.0.0.1")) (Some (str "10.9.9.9"))
  = trim (str " 203.0.113.7 ").
Proof.
  apply getClientId_leftmost.
  - intros H. apply (bool_decide_pack _) in H. by vm_compute in H.
  - discriminate.
Defined.

(** ** Rate limiter: keys, windows and the sweep *)

Lemma bucket_insert_ne (store : gmap (list N) (list Z)) (key key' : jsstring)
    (l : list Z) :
  key ≠ key' → bucket (<[key := l]> store) key' = bucket store key'.
Proof. intros H. unfold bucket. by rewrite lookup_insert_ne. Qed.

Lemma checkRateLimit_store (key : jsstring) (maxRequests windowMs now : Z)
    (store : gmap (list N) (list Z)) :
  ∃ l, (checkRateLimit key maxRequests windowMs now store).2 = <[key := l]> store.
Proof. unfold checkRateLimit. destruct (_ <=? _)%Z; simpl; eauto. Qed.

Lemma checkRateLimit_decision_bucket (key : jsstring)
    (maxRequests windowMs now : Z) (s1 s2 : gmap (list N) (list Z)) :
  bucket s1 key = bucket s2 key →
  (checkRateLimit key maxRequests windowMs now s1).1
  = (checkRateLimit key maxRequests windowMs now s2).1.
Proof.
  intros H. unfold checkRateLimit. rewrite H. by destruct (_ <=? _)%Z.
Qed.

(** X9: distinct keys do not contend: a call for one key leaves every other
    key's bucket and decisions as they were, and two calls for different keys
    give the same decisions and the same store in either order. *)
Theorem checkRateLimit_keys_independent (k1 k2 : jsstring)
    (l1 w1 t1 l2 w2 t2 : Z) (store : gmap (list N) (list Z)) :
  k1 ≠ k2 →
  let first := checkRateLimit k1 l1 w1 t1 store in
  let second := checkRateLimit k2 l2 w2 t2 store in
  bucket first.2 k2 = bucket store k2
  ∧ (checkRateLimit k2 l2 w2 t2 first.2).1 = second.1
  ∧ (checkRateLimit k1 l1 w1 t1 second.2).1 = first.1
  ∧ (checkRateLimit k2 l2 w2 t2 first.2).2 = (checkRateLimit k1 l1 w1 t1 second.2).2.
Proof.
  intros Hne first second.
  assert (H12 : bucket first.2 k2 = bucket store k2).
  { destruct (checkRateLimit_store k1 l1 w1 t1 store) as [l Hl].
    subst first. rewrite Hl. by apply bucket_insert_ne. }
  assert (H21 : bucket second.2 k1 = bucket store k1).
  { destruct (checkRateLimit_store k2 l2 w2 t2 store) as [l Hl].
    subst second. rewrite Hl. by apply bucket_insert_ne. }
  split; [done|].
  split; [by apply checkRateLimit_decision_bucket|].
  split; [by apply checkRateLimit_decision_bucket|].
  subst first second. unfold checkRateLimit in *.
  destruct (l1 <=? _)%Z eqn:E1; destruct (l2 <=? _)%Z eqn:E2; simpl in *;
    rewrite H12, H21, ?E1, ?E2; simpl; by apply insert_insert_ne.
Qed.

Lemma checkRateLimit_keys_independent_witness :
  let first := checkRateLimit (str "scrape:a") 10 60000 5 ∅ in
  let second := checkRateLimit (str "scrape:b") 10 60000 7 ∅ in
  bucket first.2 (str "scrape:b") = bucket ∅ (str "scrape:b")
  ∧ (checkRateLimit (str "scrape:b") 10 60000 7 first.2).1 = second.1
  ∧ (checkRateLimit (str "scrape:a") 10 60000 5 second.2).1 = first.1
  ∧ (checkRateLimit (str "scrape:b") 10 60000 7 first.2).2
    = (checkRateLimit (str "scrape:a") 10 60000 5 second.2).2.
Proof. apply checkRateLimit_keys_independent. discriminate. Defined.

Lemma prune_prune (last now windowMs : Z) (l : list Z) :
  (last ≤ now)%Z →
  prune now windowMs (prune last windowMs l) = prune now windowMs l.
Proof.
  intros Hle. unfold prune. induction l as [|t l IH]; [done|]. simpl.
  destruct (Z.ltb_spec (last - t) windowMs) as [Hk | Hk]; simpl.
  - by rewrite IH.
  - rewrite IH. destruct (Z.ltb_spec (now - t) windowMs); [lia | done].
Qed.

Lemma last_cons (l : list Z) :
  ∀ t d, List.last (t :: l) d = List.last l t.
Proof.
  induction l as [|x l IH]; intros t d; [done|].
  change (List.last (t :: x :: l) d) with (List.last (x :: l) d).
  by rewrite !IH.
Qed.

Lemma prune_length (now windowMs : Z) (l : list Z) :
  (length (prune now windowMs l) ≤ length l)%nat.
Proof. unfold prune. apply List.filter_length_le. Qed.

(** From a store whose bucket is the history pruned at the last clock
    reading, a run keeps that shape and never lets the bucket grow past the
    limit. *)
Lemma run_calls_history (key : jsstring) (limit window : Z) (times : list Z) :
  (0 < window)%Z →
  ∀ (store : gmap (list N) (list Z)) (hist : list Z) (last : Z),
    bucket store key = prune last window hist →
    (Z.of_nat (length (bucket store key)) ≤ limit)%Z →
    ascending last times →
    let run := run_calls key limit window times store in
    bucket run.2 key
    = prune (List.last times last) window (hist ++ admitted_times times run.1)
    ∧ (Z.of_nat (length (bucket run.2 key)) ≤ limit)%Z.
Proof.
  intros HW. induction times as [|t times IH]; intros store hist last Hb Hlen Hasc.
  - simpl. by rewrite app_nil_r.
  - destruct Hasc as [Hle Hasc]. cbn [run_calls].
    destruct (checkRateLimit key limit window t store) as [d s1] eqn:E.
    assert (Hp : prune t window (bucket store key) = prune t window hist)
      by (rewrite Hb; by apply prune_prune).
    assert (Hd : if allowed d
                 then bucket s1 key = prune t window (hist ++ [t])
                      ∧ (Z.of_nat (length (bucket s1 key)) ≤ limit)%Z
                 else bucket s1 key = prune t window hist
                      ∧ (Z.of_nat (length (bucket s1 key)) ≤ limit)%Z).
    { unfold checkRateLimit in E. rewrite Hp in E.
      destruct (Z.leb_spec limit (Z.of_nat (length (prune t window hist))))
        as [Hfull | Hroom]; injection E as <- <-; simpl; rewrite bucket_insert.
      - split; [done|]. rewrite <- Hp.
        pose proof (prune_length t window (bucket store key)). lia.
      - rewrite prune_app. unfold prune at 3. simpl.
        destruct (Z.ltb_spec (t - t) window); [|lia].
        split; [done|]. rewrite length_app. simpl. lia. }
    destruct (run_calls key limit window times s1) as [ds s2] eqn:R.
    rewrite last_cons. cbn [fst snd admitted_times].
    destruct (allowed d); destruct Hd as [Hb1 Hlen1].
    + specialize (IH s1 (hist ++ [t]) t Hb1 Hlen1 Hasc). rewrite R in IH.
      simpl in IH. by rewrite <- app_assoc in IH.
    + specialize (IH s1 hist t Hb1 Hlen1 Hasc). by rewrite R in IH.
Qed.



Lemma prune_idempotent (now windowMs : Z) (l : list Z) :
  prune now windowMs (prune now windowMs l) = prune now windowMs l.
Proof. apply prune_prune. lia. Qed.

(** X11: what the sweep leaves: no empty bucket and no timestamp that is
    300000 milliseconds old or older; a bucket that stays is the old one
    pruned, no key is added, and sweeping again at the same instant changes
    nothing. *)
Theorem sweep_result (now : Z) (store : gmap (list N) (list Z)) :
  (∀ key kept, sweep now store !! key = Some kept →
     kept ≠ []
     ∧ Forall (λ t, (now - t < 300000)%Z) kept
     ∧ ∃ old, store !! key = Some old ∧ kept = prune now 300000 old)
  ∧ (∀ key, bucket (sweep now store) key = prune now 300000 (bucket store key))
  ∧ sweep now (sweep now store) = sweep now store.
Proof.
  split; [|split].
  - intros key kept H. unfold sweep in H. rewrite lookup_omap in H.
    destruct (store !! key) as [old|] eqn:E; [|done]. simpl in H.
    pose proof (prune_in_window now 300000 old) as Hin.
    destruct (prune now 300000 old) as [|t l] eqn:P; [done|].
    injection H as <-. split; [done|]. split; [done|]. by exists old.
  - apply sweep_bucket.
  - apply map_eq. intros key. unfold sweep. rewrite !lookup_omap.
    destruct (store !! key) as [old|]; [|done]. simpl.
    destruct (prune now 300000 old) as [|t l] eqn:P; [done|].
    assert (Hi : prune now 300000 (t :: l) = t :: l)
      by (rewrite <- P; apply prune_idempotent).
    unfold mbind, option_bind. by rewrite Hi.
Qed.

(** X12: for a window of at most 300000 milliseconds the sweep is not
    observable: a call made after a sweep gets the decision, and leaves the
    bucket, that it would have without the sweep. *)
Theorem sweep_unobservable (key : jsstring) (maxRequests windowMs swept now : Z)
    (store : gmap (list N) (list Z)) :
  (swept ≤ now)%Z →
  (windowMs ≤ 300000)%Z →
  (checkRateLimit key maxRequests windowMs now (sweep swept store)).1
  = (checkRateLimit key maxRequests windowMs now store).1
  ∧ bucket (checkRateLimit key maxRequests windowMs now (sweep swept store)).2 key
    = bucket (checkRateLimit key maxRequests windowMs now store).2 key.
Proof.
  intros Hle HW.
  pose proof (sweep_keeps_window swept now windowMs store key Hle HW) as H.
  unfold checkRateLimit. rewrite H.
  destruct (_ <=? _)%Z; simpl; by rewrite !bucket_insert.
Qed.

Lemma sweep_unobservable_witness :
  (checkRateLimit (str "ip") 2 60000 400000
     (sweep 350000 {[ str "ip" := [10; 390000]%Z ]})).1
  = (checkRateLimit (str "ip") 2 60000 400000 {[ str "ip" := [10; 390000]%Z ]}).1
  ∧ bucket (checkRateLimit (str "ip") 2 60000 400000
              (sweep 350000 {[ str "ip" := [10; 390000]%Z ]})).2 (str "ip")
    = bucket (checkRateLimit (str "ip") 2 60000 400000
                {[ str "ip" := [10; 390000]%Z ]}).2 (str "ip").
Proof. apply sweep_unobservable; lia. Defined.

(** X13: for a window longer than 300000 milliseconds the sweep is
    observable. With limit [1], a first call at clock reading [1] is
    admitted; a second call 300000 milliseconds later is still inside the
    window and is refused, but it is admitted when the sweep has run in
    between. *)
Theorem sweep_lifts_refusal (key : jsstring) (windowMs : Z) :
  (300000 < windowMs)%Z →
  let store := (checkRateLimit key 1 windowMs 1 ∅).2 in
  allowed (checkRateLimit key 1 windowMs 1 ∅).1 = true
  ∧ allowed (checkRateLimit key 1 windowMs 300001 store).1 = false
  ∧ allowed (checkRateLimit key 1 windowMs 300001 (sweep 300001 store)).1 = true.
Proof.
  intros HW store.
  assert (Hs : store = <[key := [1%Z]]> ∅).
  { subst store. unfold checkRateLimit, bucket. rewrite lookup_empty. done. }
  split; [|split].
  - unfold checkRateLimit, bucket. by rewrite lookup_empty.
  - unfold checkRateLimit. rewrite Hs, bucket_insert.
    unfold prune. simpl. destruct (Z.ltb_spec (300001 - 1) windowMs); [done | lia].
  - unfold checkRateLimit. rewrite sweep_bucket, Hs, bucket_insert. done.
Qed.

Lemma sweep_lifts_refusal_witness :
  let store := (checkRateLimit (str "ip") 1 600000 1 ∅).2 in
  allowed (checkRateLimit (str "ip") 1 600000 1 ∅).1 = true
  ∧ allowed (checkRateLimit (str "ip") 1 600000 300001 store).1 = false
  ∧ allowed (checkRateLimit (str "ip") 1 600000 300001 (sweep 300001 store)).1
    = true.
Proof. apply sweep_lifts_refusal. lia. Defined.

Lemma reset_bounds (key : jsstring)
    (maxRequests windowMs now : Z) (store : gmap (list N) (list Z)) :
  (0 < windowMs)%Z →
  Forall (λ t, (0 < t ≤ now)%Z) (bucket store key) →
  let d := (checkRateLimit key maxRequests windowMs now store).1 in
  (0 < resetMs d ≤ windowMs)%Z.
Proof.
  intros HW Hb d.
  assert (Hr : resetMs d
               = (oldest_or now (prune now windowMs (bucket store key))
                  + windowMs - now)%Z).
  { subst d. unfold checkRateLimit. by destruct (_ <=? _)%Z. }
  rewrite Hr.
  pose proof (prune_in_window now windowMs (bucket store key)) as Hin.
  assert (Hp : Forall (λ t, (0 < t ≤ now)%Z)
                 (prune now windowMs (bucket store key))).
  { rewrite prune_filter. apply Forall_forall. intros t Ht.
    apply list_elem_of_filter in Ht as [_ Ht].
    by apply (proj1 (Forall_forall _ _) Hb). }
  destruct (prune now windowMs (bucket store key)) as [|t l]; simpl; [lia|].
  apply Forall_cons in Hin as [Hin _]. apply Forall_cons in Hp as [Hp _].
  destruct (Z.eqb_spec t 0); lia.
Qed.

(** X14: with a positive window and a bucket whose timestamps are positive
    clock readings not later than [now], every decision has
    [0 < resetMs ≤ windowMs]; a refused caller is never told to retry at once
    or to wait longer than one window. *)
Theorem checkRateLimit_reset_bounds (key : jsstring)
    (maxRequests windowMs now : Z) (store : gmap (list N) (list Z)) :
  (0 < windowMs)%Z →
  Forall (λ t, (0 < t ≤ now)%Z) (bucket store key) →
  let d := (checkRateLimit key maxRequests windowMs now store).1 in
  (0 < resetMs d ≤ windowMs)%Z.
Proof. apply reset_bounds. Qed.

Lemma checkRateLimit_refused (key : jsstring) (maxRequests windowMs now : Z)
    (store : gmap (list N) (list Z)) :
  allowed (checkRateLimit key maxRequests windowMs now store).1 = false →
  (maxRequests ≤ Z.of_nat (length (prune now windowMs (bucket store key))))%Z
  ∧ (checkRateLimit key maxRequests windowMs now store).2
    = <[key := prune now windowMs (bucket store key)]> store.
Proof.
  unfold checkRateLimit.
  destruct (Z.leb_spec maxRequests
              (Z.of_nat (length (prune now windowMs (bucket store key)))));
    simpl; [done | discriminate].
Qed.

Lemma checkRateLimit_reset_bounds_witness :
  let d := (checkRateLimit (str "ip") 1 60000 50000
              {[ str "ip" := [20000]%Z ]}).1 in
  (0 < resetMs d ≤ 60000)%Z.
Proof.
  apply checkRateLimit_reset_bounds; [lia|].
  unfold bucket. rewrite lookup_singleton_eq. simpl.
  repeat constructor; lia.
Defined.

(** ** Package lists: what comes out *)

Lemma first_seen_elem (e : entry) (es : list entry) :
  e ∈ first_seen es ↔ e ∈ es.
Proof.
  induction es as [|[t|x] es IH]; simpl; [done| |].
  - rewrite !elem_of_cons, list_elem_of_filter, IH. split; [tauto|].
    intros [-> | H]; [by left|].
    destruct (decide (other_than t e)) as [Ho | Ho]; [tauto|].
    left. destruct e as [t'|x]; simpl in Ho; [|done].
    apply dec_stable in Ho. by subst.
  - by rewrite !elem_of_cons, IH.
Qed.

Lemma omap_filter_NoDup (P : entry → Prop) `{∀ e, Decision (P e)}
    (l : list entry) :
  NoDup (omap accepted_name l) → NoDup (omap accepted_name (filter P l)).
Proof.
  intros Hl. eapply sublist_NoDup; [exact Hl|]. clear Hl.
  induction l as [|e l IH]; [done|].
  destruct (decide (P e)).
  - rewrite filter_cons_True by done. simpl.
    destruct (accepted_name e); [by apply sublist_skip | done].
  - rewrite filter_cons_False by done. simpl.
    destruct (accepted_name e); [by apply sublist_cons | done].
Qed.

Lemma first_seen_NoDup (es : list entry) :
  NoDup (omap accepted_name (first_seen es)).
Proof.
  induction es as [|[t|x] es IH]; [constructor| |exact IH].
  pose proof (omap_filter_NoDup (other_than t) _ IH) as Hf.
  cbn [first_seen omap list_omap accepted_name].
  destruct (validatePackageName (VStr t)); [|done].
  apply NoDup_cons. split; [|done].
  intros Hin. apply list_elem_of_omap in Hin as (e & He & Hacc).
  apply list_elem_of_filter in He as [Ho _].
  destruct e as [t'|x]; [|done]. cbn [accepted_name other_than] in *.
  destruct (validatePackageName (VStr t')); [|done].
  by injection Hacc as ->.
Qed.

Lemma sanitize_valid_facts (items : list JSValue) :
  let r := sanitizePackageList (VArr items) in
  NoDup (valid r)
  ∧ (∀ n, n ∈ valid r →
       validatePackageName (VStr n) = true
       ∧ ∃ s, VStr s ∈ items ∧ n = trim s)
  ∧ (∀ s, VStr s ∈ items → validatePackageName (VStr (trim s)) = true →
       trim s ∈ valid r).
Proof.
  intros r. subst r. rewrite sanitizePackageList_array. simpl.
  split; [apply first_seen_NoDup|]. split.
  - intros n Hn. apply list_elem_of_omap in Hn as (e & He & Hacc).
    apply first_seen_elem, list_elem_of_fmap in He as (v & -> & Hv).
    destruct v as [| |b|s|l|x]; try done.
    cbn [to_entry accepted_name] in Hacc.
    destruct (validatePackageName (VStr (trim s))) eqn:Hval; [|done].
    injection Hacc as <-. split; [done|]. by exists s.
  - intros s Hs Hval. apply list_elem_of_omap. exists (Name (trim s)).
    split.
    + apply first_seen_elem, list_elem_of_fmap. by exists (VStr s).
    + simpl. by rewrite Hval.
Qed.

(** X15: what [sanitizePackageList] puts in [valid]: names that pass
    [validatePackageName], each once, each the trimmed form of a string entry
    of the array; and no valid name is lost: the trimmed form of every string
    entry that is a valid name is in [valid]. *)
Theorem sanitizePackageList_valid (items : list JSValue) :
  let r := sanitizePackageList (VArr items) in
  NoDup (valid r)
  ∧ (∀ n, n ∈ valid r →
       validatePackageName (VStr n) = true
       ∧ ∃ s, VStr s ∈ items ∧ n = trim s)
  ∧ (∀ s, VStr s ∈ items → validatePackageName (VStr (trim s)) = true →
       trim s ∈ valid r).
Proof. apply sanitize_valid_facts. Qed.

(** ** Package names: the alphabet *)

Lemma one_of_elem (m : string) (c : N) : one_of m c = true → c ∈ str m.
Proof.
  unfold one_of. intros H. apply existsb_exists in H as (x & Hx & Heq).
  apply N.eqb_eq in Heq as ->. by apply list_elem_of_In.
Qed.

Lemma pkg_units_safe (c : N) :
  pkg_first c = true ∨ pkg_rest c = true ∨ pkg_version c = true
  ∨ c = 64 ∨ c = 47 →
  safe_unit c = true.
Proof.
  assert (Hw : ∀ m, (∀ x, x ∈ str m → safe_unit x = true) →
            (is_lower c || is_digit c || one_of m c) = true →
            safe_unit c = true).
  { intros m Hm H. apply orb_true_iff in H as [H | H].
    - unfold safe_unit, is_word.
      apply orb_true_iff in H as [H | H]; rewrite H; by rewrite ?orb_true_r.
    - by apply Hm, one_of_elem. }
  intros [H | [H | [H | [-> | ->]]]]; [| | |done|done].
  - apply (Hw "-~"%string); [|done].
    intros x Hx. repeat (apply elem_of_cons in Hx as [-> | Hx]; [done|]).
    by apply elem_of_nil in Hx.
  - apply (Hw "-._~"%string); [|done].
    intros x Hx. repeat (apply elem_of_cons in Hx as [-> | Hx]; [done|]).
    by apply elem_of_nil in Hx.
  - unfold pkg_version in H.
    apply orb_true_iff in H as [H | H]; [unfold safe_unit; by rewrite H|].
    apply one_of_elem in H.
    repeat (apply elem_of_cons in H as [-> | H]; [done|]).
    by apply elem_of_nil in H.
Qed.

Lemma safe_unit_printable (c : N) : safe_unit c = true → 33 ≤ c ≤ 126.
Proof.
  unfold safe_unit, is_word, is_lower, is_upper, is_digit, in_range, one_of.
  simpl. rewrite !orb_true_iff, !andb_true_iff, !N.leb_le, !N.eqb_eq. lia.
Qed.

Lemma printable_not_space (c : N) : 33 ≤ c ≤ 126 → is_space c = false.
Proof.
  intros H. unfold is_space, in_range.
  repeat (apply orb_false_iff; split);
    first [apply N.eqb_neq; lia
          | apply andb_false_iff; rewrite !N.leb_gt; lia].
Qed.

Lemma package_name_units (v : JSValue) :
  validatePackageName v = true →
  ∃ s, v = VStr s
       ∧ Forall (λ c, safe_unit c = true ∧ is_space c = false
                      ∧ c ∉ str ";&$`'()\ ") (trim s).
Proof.
  destruct v as [| |b|s|l|x]; try done. destruct s as [|c s]; [done|].
  intros H. exists (c :: s). split; [done|].
  apply validatePackageString_shape in H as [_ H].
  apply shape_alphabet in H.
  eapply Forall_impl; [exact H|]. intros u Hu.
  apply pkg_units_safe in Hu. pose proof (safe_unit_printable u Hu) as Hp.
  split; [done|]. split; [by apply printable_not_space|].
  intros Hin. repeat (apply elem_of_cons in Hin as [-> | Hin]; [done|]).
  by apply elem_of_nil in Hin.
Qed.

(** X16: an accepted package name, once trimmed, is made only of ASCII
    letters, digits and [_ - . ~ @ / ^ > = < |]: it holds no white space, no
    quote, no semicolon, ampersand, dollar sign, backtick, parenthesis or
    backslash. The pipe and the angle brackets of a version range are the
    shell characters it can hold. *)
Theorem validatePackageName_alphabet (v : JSValue) :
  validatePackageName v = true →
  ∃ s, v = VStr s
       ∧ Forall (λ c, safe_unit c = true ∧ is_space c = false
                      ∧ c ∉ str ";&$`'()\ ") (trim s).
Proof. apply package_name_units. Qed.

Lemma validatePackageName_alphabet_witness :
  ∃ s, VStr (str "react@>=18|19") = VStr s
       ∧ Forall (λ c, safe_unit c = true ∧ is_space c = false
                      ∧ c ∉ str ";&$`'()\ ") (trim s).
Proof. apply validatePackageName_alphabet. reflexivity. Defined.

(** ** Sandbox paths: what comes out *)

Lemma occurs_pair_join (a b c : N) (x y : jsstring) :
  c ≠ a → c ≠ b →
  occurs_in [a; b] (x ++ c :: y) → occurs_in [a; b] x ∨ occurs_in [a; b] y.
Proof.
  intros Ha Hb (l & r & H). simpl in H.
  apply app_eq_inv in H as [(k & Hx & Hk) | (k & Hl & Hk)].
  - destruct k as [|k1 [|k2 k]]; simpl in Hk; injection Hk as; subst;
      [congruence | congruence |].
    left. by exists l, k.
  - destruct k as [|k1 k]; simpl in Hk; injection Hk as; subst;
      [congruence|].
    right. by exists k, r.
Qed.

Lemma occurs_unit (a : N) (s : jsstring) : occurs_in [a] s ↔ a ∈ s.
Proof.
  split.
  - intros (l & r & ->). rewrite elem_of_app. right. by left.
  - intros H. apply list_elem_of_split in H as (l & r & ->). by exists l, r.
Qed.

(** X17: what an accepted path looks like. For a base that is absolute and
    itself free of [".."] and null bytes, the returned [normalizedPath] is
    absolute, holds no [".."] and no null byte, starts with the base or with
    ["/vercel/sandbox"], and is accepted unchanged when validated again. *)
Theorem validateSandboxPath_normal (v : JSValue) (base n : jsstring) :
  str "/" `prefix_of` base →
  ¬ occurs_in (str "..") base →
  ¬ occurs_in [0] base →
  validateSandboxPath v base = PathOk n →
  str "/" `prefix_of` n
  ∧ ¬ occurs_in (str "..") n
  ∧ ¬ occurs_in [0] n
  ∧ (base `prefix_of` n ∨ VERCEL_ROOT `prefix_of` n)
  ∧ validateSandboxPath (VStr n) base = PathOk n.
Proof.
  intros Habs Hb1 Hb2 H.
  destruct v as [| |b|p|l|x]; try done. destruct p as [|c p]; [done|].
  simpl in H. unfold validateSandboxPathString in H.
  destruct (includes (c :: p) (str "..")) eqn:H1; [done|].
  destruct (includes (c :: p) [0]) eqn:H2; [done|].
  apply includes_not_occurs in H1, H2.
  assert (Hroot : base `prefix_of` n ∨ VERCEL_ROOT `prefix_of` n).
  { destruct (startsWith (fullPath (c :: p) base) base) eqn:Hp1.
    - simpl in H. injection H as <-. left. by apply startsWith_prefix.
    - destruct (startsWith (fullPath (c :: p) base) VERCEL_ROOT) eqn:Hp2;
        simpl in H; [|done].
      injection H as <-. right. by apply startsWith_prefix. }
  assert (Hn : n = fullPath (c :: p) base).
  { destruct (negb _ && negb _); [done | by injection H]. }
  clear H.
  assert (Hn1 : ¬ occurs_in (str "..") n).
  { subst n. unfold fullPath. destruct (startsWith (c :: p) (str "/")); [done|].
    intros Ho. apply (occurs_pair_join 46 46 47 base (c :: p)) in Ho; [|done|done].
    by destruct Ho. }
  assert (Hn2 : ¬ occurs_in [0] n).
  { subst n. unfold fullPath. destruct (startsWith (c :: p) (str "/")); [done|].
    rewrite occurs_unit in *. rewrite !elem_of_app.
    intros [Ho | [Ho | Ho]]; [done | | done].
    apply (list_elem_of_singleton 0 47) in Ho. discriminate Ho. }
  assert (Hn0 : str "/" `prefix_of` n).
  { destruct Hroot as [[k ->] | [k ->]]; [|by eexists].
    destruct Habs as [k' ->]. by eexists. }
  split; [done|]. split; [done|]. split; [done|]. split; [done|].
  clear Hn. destruct n as [|f full]; [by destruct Hn0 as [k Hk]|].
  simpl. unfold validateSandboxPathString.
  apply includes_not_occurs in Hn1, Hn2. rewrite Hn1, Hn2.
  assert (Hsame : fullPath (f :: full) base = f :: full)
    by (unfold fullPath; apply startsWith_prefix in Hn0; by rewrite Hn0).
  rewrite Hsame.
  destruct Hroot as [Hr | Hr]; apply startsWith_prefix in Hr; rewrite Hr;
    by rewrite ?andb_false_r.
Qed.

Lemma validateSandboxPath_normal_witness :
  str "/" `prefix_of` str "/home/user/app/src/App.tsx"
  ∧ ¬ occurs_in (str "..") (str "/home/user/app/src/App.tsx")
  ∧ ¬ occurs_in [0] (str "/home/user/app/src/App.tsx")
  ∧ (DEFAULT_BASE `prefix_of` str "/home/user/app/src/App.tsx"
     ∨ VERCEL_ROOT `prefix_of` str "/home/user/app/src/App.tsx")
  ∧ validateSandboxPath (VStr (str "/home/user/app/src/App.tsx")) DEFAULT_BASE
    = PathOk (str "/home/user/app/src/App.tsx").
Proof.
  apply (validateSandboxPath_normal (VStr (str "src/App.tsx")) DEFAULT_BASE).
  - by apply startsWith_prefix.
  - by apply includes_not_occurs.
  - by apply includes_not_occurs.
  - reflexivity.
Defined.

(** X18: a relative path that is free of [".."] and null bytes is never
    rejected: whatever the base, it is accepted as the base, a slash and the
    path. *)
Theorem validateSandboxPath_relative (path base : jsstring) :
  path ≠ [] →
  ¬ str "/" `prefix_of` path →
  ¬ occurs_in (str "..") path →
  ¬ occurs_in [0] path →
  validateSandboxPath (VStr path) base = PathOk (base ++ str "/" ++ path).
Proof.
  intros Hne Hrel H1 H2. destruct path as [|c p]; [done|].
  simpl. unfold validateSandboxPathString.
  apply includes_not_occurs in H1, H2. rewrite H1, H2.
  apply startsWith_not_prefix in Hrel. unfold fullPath. rewrite Hrel.
  assert (Hp : startsWith (base ++ str "/" ++ c :: p) base = true)
    by (apply startsWith_prefix; by eexists).
  by rewrite Hp.
Qed.

Lemma validateSandboxPath_relative_witness :
  validateSandboxPath (VStr (str "src/App.tsx")) (str "/srv/box")
  = PathOk (str "/srv/box" ++ str "/" ++ str "src/App.tsx").
Proof.
  apply validateSandboxPath_relative.
  - discriminate.
  - by apply startsWith_not_prefix.
  - by apply includes_not_occurs.
  - by apply includes_not_occurs.
Defined.

(** ** URL validator: private IPv4 hosts *)

Lemma matches_cat (r1 r2 : regex) (before m1 m2 after : jsstring) :
  matches r1 before m1 (m2 ++ after) →
  matches r2 (rev m1 ++ before) m2 after →
  matches (Cat r1 r2) before (m1 ++ m2) after.
Proof. intros H1 H2. by exists m1, m2. Qed.

Lemma matches_octet (before m after : jsstring) :
  octet m → matches digits_1_3 before m after.
Proof. intros [Hd [Hlo Hhi]]. by repeat split. Qed.

Lemma matches_lit_intro (l : string) (before after : jsstring) :
  matches (lit l) before (str l) after.
Proof. by apply matches_lit. Qed.

Lemma first_match_some {A} (table : list (A * regex)) (a : A) (r : regex)
    (s : jsstring) :
  (a, r) ∈ table → found r s → ∃ a', first_match table s = Some a'.
Proof.
  intros Hin Hf. destruct (first_match table s) as [a'|] eqn:E; [by exists a'|].
  by destruct (proj1 (first_match_none table s) E a r Hin).
Qed.

Lemma toLowerCase_fixed (s : jsstring) :
  Forall (λ c, is_upper c = false) s → toLowerCase s = s.
Proof.
  induction 1 as [|c s Hc _ IH]; [done|].
  change (toLowerCase (c :: s)) with (lower_unit c :: toLowerCase s).
  unfold lower_unit. by rewrite Hc, IH.
Qed.

Lemma digit_not_upper (c : N) : is_digit c = true → is_upper c = false.
Proof.
  unfold is_digit, is_upper, in_range.
  rewrite andb_true_iff, andb_false_iff, !N.leb_le, !N.leb_gt. lia.
Qed.

Lemma octet_not_upper (m : jsstring) :
  octet m → Forall (λ c, is_upper c = false) m.
Proof.
  intros [H _]. eapply Forall_impl; [exact H|]. apply digit_not_upper.
Qed.

Lemma private_ipv4_lower (h : jsstring) :
  private_ipv4 h → toLowerCase h = h.
Proof.
  intros H. apply toLowerCase_fixed.
  destruct H as [a b c Ha Hb Hc | x y a b Hxy Ha Hb | a b Ha Hb];
    repeat (apply Forall_app; split);
    try (by apply octet_not_upper); try (by repeat constructor).
  unfold in_172_block in Hxy. rewrite !andb_true_iff in Hxy.
  destruct Hxy as [[[Hx Hy] _] _].
  repeat constructor; by apply digit_not_upper.
Qed.

(** One step of a concatenation: the run [m] goes to the first pattern. *)
Ltac match_run m :=
  match goal with
  | |- matches (Cat ?r1 ?r2) ?b _ ?a => apply (matches_cat r1 r2 b m _ a)
  end.

Lemma matches_last_octet (before m : jsstring) :
  octet m → matches (Cat digits_1_3 (Cat Eol Eps)) before m [].
Proof.
  intros Hm. exists m, []. split; [by rewrite app_nil_r|].
  split; [by apply matches_octet|]. by exists [], [].
Qed.

Lemma private_ipv4_found (h : jsstring) :
  private_ipv4 h →
  ∃ rule r, (rule, r) ∈ BLOCKED_HOSTNAME_PATTERNS ∧ found r h.
Proof.
  intros H. destruct H as [a b c Ha Hb Hc | x y a b Hxy Ha Hb | a b Ha Hb].
  - eexists Net10, _. split; [apply list_elem_of_here|].
    exists [], (str "10." ++ a ++ str "." ++ b ++ str "." ++ c), [].
    split; [by rewrite app_nil_r|]. cbn [seq].
    exists [], (str "10." ++ a ++ str "." ++ b ++ str "." ++ c).
    split; [done|]. split; [done|]. cbn [rev app].
    match_run (str "10."); [apply matches_lit_intro|].
    match_run a; [by apply matches_octet|].
    match_run (str "."); [apply matches_lit_intro|].
    match_run b; [by apply matches_octet|].
    match_run (str "."); [apply matches_lit_intro|].
    by apply matches_last_octet.
  - eexists Net172, _.
    split; [apply list_elem_of_further, list_elem_of_here|].
    exists [], (str "172." ++ [x; y] ++ str "." ++ a ++ str "." ++ b), [].
    split; [by rewrite app_nil_r|]. cbn [seq].
    exists [], (str "172." ++ [x; y] ++ str "." ++ a ++ str "." ++ b).
    split; [done|]. split; [done|]. cbn [rev app].
    match_run (str "172."); [apply matches_lit_intro|].
    match_run [x; y].
    { unfold in_172_block, is_digit, in_range in Hxy.
      rewrite !andb_true_iff, !N.leb_le in Hxy.
      assert (Hc : (x = 49 ∧ 54 ≤ y ≤ 57) ∨ (x = 50 ∧ 48 ≤ y ≤ 57)
                   ∨ (x = 51 ∧ (y = 48 ∨ y = 49))) by lia.
      destruct Hc as [[-> Hy] | [[-> Hy] | [-> Hy]]].
      - left. exists [49], [y]. split; [done|]. split; [by apply matches_lit|].
        exists y. split; [done|]. unfold in_range.
        rewrite andb_true_iff, !N.leb_le. lia.
      - right. left. exists [50], [y]. split; [done|].
        split; [by apply matches_lit|].
        exists y. split; [done|]. unfold is_digit, in_range.
        rewrite andb_true_iff, !N.leb_le. lia.
      - right. right. exists [51], [y]. split; [done|].
        split; [by apply matches_lit|].
        exists y. split; [done|]. by destruct Hy as [-> | ->]. }
    match_run (str "."); [apply matches_lit_intro|].
    match_run a; [by apply matches_octet|].
    match_run (str "."); [apply matches_lit_intro|].
    by apply matches_last_octet.
  - eexists Net192, _.
    split; [do 2 apply list_elem_of_further; apply list_elem_of_here|].
    exists [], (str "192.168." ++ a ++ str "." ++ b), [].
    split; [by rewrite app_nil_r|]. cbn [seq].
    exists [], (str "192.168." ++ a ++ str "." ++ b).
    split; [done|]. split; [done|]. cbn [rev app].
    match_run (str "192.168."); [apply matches_lit_intro|].
    match_run a; [by apply matches_octet|].
    match_run (str "."); [apply matches_lit_intro|].
    by apply matches_last_octet.
Qed.

Lemma private_ipv4_not_listed (h : jsstring) :
  private_ipv4 h → h ∉ BLOCKED_HOSTNAMES.
Proof.
  intros H Hin.
  destruct H as [a b c _ _ _ | x y a b Hxy _ _ | a b _ _];
    repeat (apply elem_of_cons in Hin as [Hin | Hin]; [by cbn in Hin|]);
    by apply elem_of_nil in Hin.
Qed.

(** X19: every dotted host in [10.x.x.x], [172.16-31.x.x] or [192.168.x.x]
    is rejected as a private network address, whatever the rest of the URL
    is. *)
Theorem validateUrl_private_ipv4 (parseURL : jsstring → option URL)
    (input : jsstring) (u : URL) :
  parseURL input = Some u →
  protocol u ∈ [str "http:"; str "https:"] →
  private_ipv4 (hostname u) →
  validateUrl parseURL input = UrlRejected PrivateNetwork.
Proof.
  intros Hparse Hp Hh. unfold validateUrl. rewrite Hparse.
  rewrite bool_decide_eq_true_2 by done. cbn [negb]. cbv beta iota zeta.
  rewrite (private_ipv4_lower _ Hh).
  rewrite bool_decide_eq_false_2 by by apply private_ipv4_not_listed.
  destruct (private_ipv4_found _ Hh) as (rule & r & Hin & Hf).
  by destruct (first_match_some _ rule r _ Hin Hf) as [a' ->].
Qed.

Lemma validateUrl_private_ipv4_witness :
  validateUrl (λ _, Some {| protocol := str "http:"; hostname := str "172.31.255.7" |})
    (str "http://172.31.255.7/admin")
  = UrlRejected PrivateNetwork.
Proof.
  apply (validateUrl_private_ipv4 _ _
           {| protocol := str "http:"; hostname := str "172.31.255.7" |}).
  - reflexivity.
  - apply (bool_decide_unpack _). vm_compute. exact I.
  - apply (private_172 51 49 (str "255") (str "7")).
    + reflexivity.
    + split; [by repeat constructor | simpl; lia].
    + split; [by repeat constructor | simpl; lia].
Defined.

(** ** Quote sanitiser *)

Lemma replace_units_app (p : N → bool) (rep a b : jsstring) :
  replace_units p rep (a ++ b) = replace_units p rep a ++ replace_units p rep b.
Proof. unfold replace_units. apply flat_map_app. Qed.

Lemma sanitizeQuotes_app (a b : jsstring) :
  sanitizeQuotes (a ++ b) = sanitizeQuotes a ++ sanitizeQuotes b.
Proof. unfold sanitizeQuotes. by rewrite !replace_units_app. Qed.

Lemma replace_units_one (p : N → bool) (rep : jsstring) (c : N) :
  replace_units p rep [c] = if p c then rep else [c].
Proof. unfold replace_units. simpl. by rewrite app_nil_r. Qed.

Lemma sanitizeQuotes_unit (c : N) : sanitizeQuotes [c] = plain_unit c.
Proof.
  unfold sanitizeQuotes, plain_unit.
  rewrite replace_units_one.
  destruct (in_range 8216 8219 c) eqn:E1; [reflexivity|].
  rewrite replace_units_one.
  destruct (in_range 8220 8223 c) eqn:E2.
  { destruct (in_range 8249 8250 c) eqn:E4; [|reflexivity].
    unfold in_range in *. rewrite !andb_true_iff, !N.leb_le in *. lia. }
  rewrite replace_units_one.
  destruct ((c =? 171) || (c =? 187)) eqn:E3.
  { destruct (in_range 8249 8250 c) eqn:E4;
      [|cbn [orb]; rewrite E3; reflexivity].
    unfold in_range in *.
    rewrite orb_true_iff, !andb_true_iff, !N.leb_le, !N.eqb_eq in *. lia. }
  apply orb_false_iff in E3 as [E3a E3b]. rewrite E3a, E3b.
  rewrite replace_units_one.
  destruct (in_range 8249 8250 c) eqn:E4; [reflexivity|].
  rewrite replace_units_one.
  destruct (in_range 8211 8212 c) eqn:E5; [reflexivity|].
  rewrite replace_units_one. rewrite (N.eqb_sym 8230 c).
  destruct (c =? 8230) eqn:E6; [reflexivity|].
  rewrite replace_units_one. rewrite (N.eqb_sym 160 c).
  by destruct (c =? 160).
Qed.

Lemma sanitizeQuotes_flat_map (s : jsstring) :
  sanitizeQuotes s = flat_map plain_unit s.
Proof.
  induction s as [|c s IH]; [done|].
  change (c :: s) with ([c] ++ s).
  by rewrite sanitizeQuotes_app, sanitizeQuotes_unit, IH.
Qed.

Lemma plain_unit_clean (c : N) :
  Forall (λ x, typographic x = false) (plain_unit c).
Proof.
  unfold plain_unit.
  destruct (in_range 8216 8219 c || in_range 8249 8250 c) eqn:E1;
    [by repeat constructor|].
  destruct (in_range 8220 8223 c || (c =? 171) || (c =? 187)) eqn:E2;
    [by repeat constructor|].
  destruct (in_range 8211 8212 c) eqn:E3; [by repeat constructor|].
  destruct (c =? 8230) eqn:E4; [by repeat constructor|].
  destruct (c =? 160) eqn:E5; [by repeat constructor|].
  constructor; [|done]. unfold typographic, in_range in *.
  rewrite !orb_false_iff, !andb_false_iff, !N.leb_gt, ?N.eqb_neq in *.
  repeat split; lia.
Qed.

Lemma plain_unit_fixed (c : N) : typographic c = false → plain_unit c = [c].
Proof.
  unfold typographic, plain_unit, in_range.
  rewrite !orb_false_iff, !andb_false_iff, !N.leb_gt, !N.eqb_neq.
  intros H.
  repeat match goal with
         | |- context [if ?b then _ else _] =>
             let E := fresh in
             destruct b eqn:E;
             [exfalso;
              rewrite ?orb_true_iff, ?andb_true_iff, ?N.leb_le, ?N.eqb_eq in E;
              lia|]
         end.
  done.
Qed.

(** X20: the seven replacements of [sanitizeQuotes] act as one unit-by-unit
    substitution, so the sanitiser distributes over concatenation, and its
    output holds none of the typographic units it rewrites. *)
Theorem sanitizeQuotes_clean :
  (∀ s, sanitizeQuotes s = flat_map plain_unit s)
  ∧ (∀ a b, sanitizeQuotes (a ++ b) = sanitizeQuotes a ++ sanitizeQuotes b)
  ∧ (∀ s, Forall (λ c, typographic c = false) (sanitizeQuotes s)).
Proof.
  split; [apply sanitizeQuotes_flat_map|]. split; [apply sanitizeQuotes_app|].
  intros s. rewrite sanitizeQuotes_flat_map.
  induction s as [|c s IH]; [done|]. simpl.
  apply Forall_app. split; [apply plain_unit_clean | done].
Qed.

Lemma sanitizeQuotes_fixed (s : jsstring) :
  Forall (λ c, typographic c = false) s → sanitizeQuotes s = s.
Proof.
  rewrite sanitizeQuotes_flat_map.
  induction 1 as [|c s Hc _ IH]; [done|]. simpl.
  by rewrite (plain_unit_fixed c Hc), IH.
Qed.

(** X21: [sanitizeQuotes] is idempotent, leaves a text without typographic
    units as it is, and never shortens a text nor makes it more than three
    times as long. *)
Theorem sanitizeQuotes_idempotent :
  (∀ s, sanitizeQuotes (sanitizeQuotes s) = sanitizeQuotes s)
  ∧ (∀ s, Forall (λ c, typographic c = false) s → sanitizeQuotes s = s)
  ∧ (∀ s, (length s ≤ length (sanitizeQuotes s) ≤ 3 * length s)%nat).
Proof.
  split; [|split].
  - intros s. apply sanitizeQuotes_fixed.
    rewrite sanitizeQuotes_flat_map.
    induction s as [|c s IH]; [done|]. simpl.
    apply Forall_app. split; [apply plain_unit_clean | done].
  - apply sanitizeQuotes_fixed.
  - intros s. rewrite sanitizeQuotes_flat_map.
    induction s as [|c s IH]; [simpl; lia|]. simpl. rewrite length_app.
    assert (Hc : (1 ≤ length (plain_unit c) ≤ 3)%nat).
    { unfold plain_unit.
      repeat match goal with
             | |- context [if ?b then _ else _] => destruct b
             end; simpl; lia. }
    lia.
Qed.

(** ** Route handlers *)

Lemma ceil_seconds_bounds (ms : Z) :
  (0 < ms ≤ 60000)%Z → (1 ≤ ceil_seconds ms ≤ 60)%Z.
Proof.
  intros H. unfold ceil_seconds.
  assert (H1 : (- 60 ≤ (- ms) / 1000)%Z) by (apply Z.div_le_lower_bound; lia).
  assert (H2 : ((- ms) / 1000 < 0)%Z) by (apply Z.div_lt_upper_bound; lia).
  lia.
Qed.


(** X23: the budget of the command routes. Whatever the answer, the store
    is the one the rate check leaves: a call that gets past the limiter is
    recorded at [now] even when the command is invalid, the body unreadable
    or no sandbox active, and a call answered 429 is not recorded. With
    timestamps that are positive clock readings not later than [now], the
    [Retry-After] of a 429 is between 1 and 60 seconds. *)
Theorem command_route_budget (forwarded realIp : option jsstring)
    (body : option JSValue) (sandbox : bool) (now : Z)
    (store : gmap (list N) (list Z)) :
  let key := str "run-command:" ++ getClientId forwarded realIp in
  let r := run_command forwarded realIp body sandbox now store in
  Forall (λ t, (0 < t ≤ now)%Z) (bucket store key) →
  (∀ retryAfter, r.1 = CmdRateLimited retryAfter →
     bucket r.2 key = prune now 60000 (bucket store key)
     ∧ (20 ≤ Z.of_nat (length (bucket r.2 key)))%Z
     ∧ (1 ≤ retryAfter ≤ 60)%Z)
  ∧ ((∀ retryAfter, r.1 ≠ CmdRateLimited retryAfter) →
       bucket r.2 key = prune now 60000 (bucket store key) ++ [now]
       ∧ (Z.of_nat (length (bucket r.2 key)) ≤ 20)%Z).
Proof.
  intros key r Hclock. subst r. unfold run_command. fold key.
  pose proof (reset_bounds key 20 60000 now store ltac:(lia) Hclock) as Hreset.
  pose proof (checkRateLimit_admitted key 20 60000 now store) as Hadm.
  pose proof (checkRateLimit_refused key 20 60000 now store) as Href.
  destruct (checkRateLimit key 20 60000 now store) as [d s'] eqn:E.
  simpl in Hreset, Hadm, Href.
  destruct (allowed d) eqn:Ha; simpl.
  - destruct (Hadm eq_refl) as [Hlen ->]. split.
    + intros ra H. destruct body as [command|]; [|done].
      destruct (validateCommand command); [by destruct sandbox | done].
    + intros _.
      assert (Hb : bucket (<[key := prune now 60000 (bucket store key) ++ [now]]> store) key
                   = prune now 60000 (bucket store key) ++ [now])
        by apply bucket_insert.
      assert (Hl : (Z.of_nat (length (prune now 60000 (bucket store key) ++ [now]))
                    ≤ 20)%Z) by (rewrite length_app; simpl; lia).
      destruct body as [command|]; simpl; [|by rewrite Hb].
      destruct (validateCommand command); [destruct sandbox|]; simpl;
        by rewrite Hb.
  - destruct (Href eq_refl) as [Hlen ->]. split.
    + intros ra [= <-]. rewrite bucket_insert. split; [done|]. split; [done|].
      by apply ceil_seconds_bounds.
    + intros H. by destruct (H _ eq_refl).
Qed.

Lemma command_route_budget_witness :
  let key := str "run-command:" ++ getClientId (Some (str "203.0.113.7")) None in
  let r := run_command (Some (str "203.0.113.7")) None
             (Some (VStr (str "bash -c x"))) true 1000 ∅ in
  (∀ retryAfter, r.1 = CmdRateLimited retryAfter →
     bucket r.2 key = prune 1000 60000 (bucket ∅ key)
     ∧ (20 ≤ Z.of_nat (length (bucket r.2 key)))%Z
     ∧ (1 ≤ retryAfter ≤ 60)%Z)
  ∧ ((∀ retryAfter, r.1 ≠ CmdRateLimited retryAfter) →
       bucket r.2 key = prune 1000 60000 (bucket ∅ key) ++ [1000%Z]
       ∧ (Z.of_nat (length (bucket r.2 key)) ≤ 20)%Z).
Proof.
  apply (command_route_budget (Some (str "203.0.113.7")) None
           (Some (VStr (str "bash -c x"))) true 1000 ∅).
  unfold bucket. rewrite lookup_empty. constructor.
Defined.

(** X24: what reaches the package installer. [install-packages-v2] calls the
    provider only when the rate limiter admitted the call and the body is a
    non-empty array; the list it passes is not empty, has no duplicates, and
    holds only names that pass [validatePackageName], so names without white
    space, quotes, semicolons, ampersands, dollar signs or backticks. *)
Theorem install_route_run (forwarded realIp : option jsstring)
    (body : option JSValue) (provider : bool) (now : Z)
    (store : gmap (list N) (list Z)) (packages : list jsstring) :
  (install_packages_v2 forwarded realIp body provider now store).1
  = InstRun packages →
  allowed (checkRateLimit (str "install-packages:" ++ getClientId forwarded realIp)
             5 60000 now store).1 = true
  ∧ (∃ items, body = Some (VArr items)
              ∧ packages = valid (sanitizePackageList (VArr items)))
  ∧ packages ≠ []
  ∧ NoDup packages
  ∧ Forall (λ n, validatePackageName (VStr n) = true
                 ∧ Forall (λ c, safe_unit c = true ∧ is_space c = false
                                ∧ c ∉ str ";&$`'()\ ") n) packages.
Proof.
  unfold install_packages_v2.
  destruct (checkRateLimit _ 5 60000 now store) as [d s'] eqn:E.
  cbn [fst]. destruct (allowed d); cbn [negb]; [|done].
  destruct body as [[| |b|s|items|x]|]; try done.
  destruct items as [|v items]; [done|].
  destruct (sanitize_valid_facts (v :: items)) as (Hnd & Hval & _).
  destruct (valid (sanitizePackageList (VArr (v :: items)))) as [|n l] eqn:Ev;
    [done|].
  destruct provider; [|done]. cbn [fst]. intros [= <-].
  split; [done|]. split; [by exists (v :: items)|]. split; [done|].
  split; [done|].
  apply Forall_forall. intros name Hname.
  destruct (Hval name Hname) as (Hok & s & _ & ->). split; [done|].
  destruct (package_name_units _ Hok) as (s0 & [= <-] & Hunits).
  by rewrite trim_idempotent in Hunits.
Qed.

Lemma install_route_run_witness :
  allowed (checkRateLimit (str "install-packages:" ++ getClientId None None)
             5 60000 7 ∅).1 = true
  ∧ (∃ items, Some (VArr [VStr (str "react"); VStr (str " react "); VNull])
              = Some (VArr items)
              ∧ [str "react"] = valid (sanitizePackageList (VArr items)))
  ∧ [str "react"] ≠ []
  ∧ NoDup [str "react"]
  ∧ Forall (λ n, validatePackageName (VStr n) = true
                 ∧ Forall (λ c, safe_unit c = true ∧ is_space c = false
                                ∧ c ∉ str ";&$`'()\ ") n) [str "react"].
Proof.
  apply (install_route_run None None
           (Some (VArr [VStr (str "react"); VStr (str " react "); VNull]))
           true 7 ∅).
  reflexivity.
Defined.

(** ** Command validator: white space is white space *)

Lemma respaced_rev (s s' : jsstring) :
  respaced s s' → respaced (rev s) (rev s').
Proof.
  induction 1 as [|c c' s s' Hc _ IH]; simpl; [constructor|].
  apply Forall2_app; [done|]. constructor; [done | constructor].
Qed.

Lemma respaced_drop_spaces (s s' : jsstring) :
  respaced s s' → respaced (drop_spaces s) (drop_spaces s').
Proof.
  induction 1 as [|c c' s s' Hc Hs IH]; simpl; [constructor|].
  destruct Hc as [<- | [Hc Hc']].
  - destruct (is_space c); [done | by constructor; [left|]].
  - by rewrite Hc, Hc'.
Qed.

Lemma respaced_trim (s s' : jsstring) :
  respaced s s' → respaced (trim s) (trim s').
Proof.
  intros H. unfold trim.
  by apply respaced_rev, respaced_drop_spaces, respaced_rev, respaced_drop_spaces.
Qed.

Lemma space_not_word (c : N) : is_space c = true → is_word c = false.
Proof.
  destruct (is_word c) eqn:Hw; [|done]. intros Hs.
  assert (Hp : 33 ≤ c ≤ 126).
  { unfold is_word, is_lower, is_upper, is_digit, in_range in Hw.
    rewrite !orb_true_iff, !andb_true_iff, !N.leb_le, !N.eqb_eq in Hw. lia. }
  apply printable_not_space in Hp. congruence.
Qed.

Lemma respaced_word_at (s s' : jsstring) :
  respaced s s' → word_at s = word_at s'.
Proof.
  intros H. destruct H as [|c c' s s' [<- | [Hc Hc']] _]; simpl; [done|done|].
  by rewrite !space_not_word.
Qed.

Lemma respaced_matches (r : regex) :
  space_blind r →
  ∀ before m after before' m' after',
    respaced before before' → respaced m m' → respaced after after' →
    matches r before m after → matches r before' m' after'.
Proof.
  induction r as [|p|r1 IH1 r2 IH2|r1 IH1 r2 IH2|r1 IH1|p lo hi| | |];
    intros Hb before m after before' m' after' Hbe Hm Haf; simpl in *.
  - intros ->. by apply Forall2_nil_inv_l in Hm.
  - intros (c & -> & Hc).
    apply Forall2_cons_inv_l in Hm as (c' & l' & Hcc & Hl & ->).
    apply Forall2_nil_inv_l in Hl as ->. exists c'. split; [done|].
    by rewrite <- (Hb c c').
  - destruct Hb as [Hb1 Hb2]. intros (m1 & m2 & -> & H1 & H2).
    apply Forall2_app_inv_l in Hm as (m1' & m2' & Hm1 & Hm2 & ->).
    exists m1', m2'. split; [done|]. split.
    + apply (IH1 Hb1 before m1 (m2 ++ after)); try done.
      by apply Forall2_app.
    + apply (IH2 Hb2 (rev m1 ++ before) m2 after); try done.
      apply Forall2_app; [by apply respaced_rev | done].
  - destruct Hb as [Hb1 Hb2].
    intros [H | H]; [left; by eapply IH1 | right; by eapply IH2].
  - intros [H | ->]; [left; by eapply IH1 | right].
    by apply Forall2_nil_inv_l in Hm.
  - intros (Hall & Hlo & Hhi).
    rewrite <- (Forall2_length _ _ _ Hm). split; [|done].
    clear Hlo Hhi. induction Hm as [|c c' l l' Hc _ IHl]; [done|].
    apply Forall_cons in Hall as [Hpc Hall].
    constructor; [by rewrite <- (Hb c c') | by apply IHl].
  - intros [-> ->]. apply Forall2_nil_inv_l in Hm, Hbe. by subst.
  - intros [-> ->]. apply Forall2_nil_inv_l in Hm, Haf. by subst.
  - intros [-> Hw]. apply Forall2_nil_inv_l in Hm as ->. split; [done|].
    by rewrite <- (respaced_word_at _ _ Hbe), <- (respaced_word_at _ _ Haf).
Qed.

Lemma respaced_found (r : regex) (s s' : jsstring) :
  space_blind r → respaced s s' → found r s → found r s'.
Proof.
  intros Hb Hs (pre & m & post & -> & H).
  apply Forall2_app_inv_l in Hs as (pre' & rest & Hpre & Hrest & ->).
  apply Forall2_app_inv_l in Hrest as (m' & post' & Hm & Hpost & ->).
  exists pre', m', post'. split; [done|].
  apply (respaced_matches r Hb (rev pre) m post); try done.
  by apply respaced_rev.
Qed.

Lemma respaced_sym (s s' : jsstring) : respaced s s' → respaced s' s.
Proof.
  induction 1 as [|c c' s s' Hc _ IH]; constructor; [|done].
  destruct Hc as [-> | [? ?]]; [by left | by right].
Qed.

Lemma respaced_regex_test (r : regex) (s s' : jsstring) :
  space_blind r → respaced s s' → regex_test r s = regex_test r s'.
Proof.
  intros Hb Hs.
  destruct (regex_test r s) eqn:E1, (regex_test r s') eqn:E2; try done.
  - apply regex_test_found in E1. apply regex_test_not_found in E2.
    destruct E2. by apply (respaced_found r s).
  - apply regex_test_found in E2. apply regex_test_not_found in E1.
    destruct E1. apply (respaced_found r s'); [done | | done].
    by apply respaced_sym.
Qed.

Lemma blind_unit (x : N) :
  is_space x = false → ∀ c c', same_or_space c c' → (x =? c) = (x =? c').
Proof.
  intros Hx c c' [-> | [Hc Hc']]; [done|].
  destruct (N.eqb_spec x c) as [->|_]; [congruence|].
  destruct (N.eqb_spec x c') as [->|_]; [congruence | done].
Qed.

Lemma blind_lit (l : jsstring) :
  Forall (λ x, is_space x = false) l → space_blind (lit_units l).
Proof.
  induction 1 as [|x l Hx _ IH]; simpl; [done|].
  split; [by apply blind_unit | done].
Qed.

Lemma blind_whole_word (w : string) :
  Forall (λ x, is_space x = false) (str w) → space_blind (whole_word w).
Proof. intros H. split; [done|]. split; [by apply blind_lit | done]. Qed.

Lemma blind_metacharacters :
  ∀ c c', same_or_space c c' → one_of ";&|`$" c = one_of ";&|`$" c'.
Proof.
  intros c c' [-> | [Hc Hc']]; [done|].
  assert (Hm : ∀ u, is_space u = true → one_of ";&|`$" u = false).
  { intros u Hu. destruct (one_of ";&|`$" u) eqn:E; [|done].
    assert (Hp : 33 ≤ u ≤ 126).
    { unfold one_of in E. simpl in E.
      rewrite !orb_true_iff, !N.eqb_eq in E. lia. }
    apply printable_not_space in Hp. congruence. }
  by rewrite !Hm.
Qed.

Lemma blind_deny_list :
  Forall (λ entry, space_blind entry.2) BLOCKED_PATTERNS.
Proof.
  unfold BLOCKED_PATTERNS.
  repeat (apply Forall_cons; split); [| | | | | | | | | | | | | | | |constructor];
    cbn [snd];
    first [ exact blind_metacharacters
          | apply blind_whole_word; by repeat constructor
          | apply (blind_lit (str _)); by repeat constructor ].
Qed.

Lemma respaced_first_match (table : list (string * regex)) (s s' : jsstring) :
  Forall (λ entry, space_blind entry.2) table →
  respaced s s' →
  first_match table s = first_match table s'.
Proof.
  intros Ht Hs. induction Ht as [|[a r] table Hr _ IH]; [done|]. simpl.
  by rewrite (respaced_regex_test r s s' Hr Hs), IH.
Qed.

Lemma respaced_split_go (s s' : jsstring) :
  respaced s s' → ∀ gap cur, split_go gap cur s = split_go gap cur s'.
Proof.
  induction 1 as [|c c' s s' Hc _ IH]; intros gap cur; [done|]. simpl.
  destruct Hc as [<- | [Hc Hc']].
  - by rewrite !IH.
  - rewrite Hc, Hc'. by rewrite !IH.
Qed.

(** X25: the validator does not tell white-space units apart. Replacing white
    space in a command by other white space, a space by a line feed for
    instance, never changes the result: the same executable and arguments, or
    the same error. *)
Theorem validateCommand_respaced (s s' : jsstring) :
  respaced s s' →
  validateCommand (VStr s) = validateCommand (VStr s').
Proof.
  intros H.
  pose proof (respaced_trim s s' H) as Ht.
  destruct H as [|c c' s s' Hc Hs]; [done|].
  unfold validateCommand, validateCommandString.
  set (t := trim (c :: s)) in *. set (t' := trim (c' :: s')) in *.
  assert (Hnil : is_nil t = is_nil t') by (by destruct Ht).
  rewrite Hnil, (Forall2_length _ _ _ Ht).
  rewrite (respaced_first_match _ t t' blind_deny_list Ht).
  unfold split_spaces. by rewrite (respaced_split_go t t' Ht).
Qed.

Lemma validateCommand_respaced_witness :
  validateCommand (VStr (str "ls" ++ [32] ++ str "node" ++ [32] ++ str "x.js"))
  = validateCommand (VStr (str "ls" ++ [10] ++ str "node" ++ [32] ++ str "x.js")).
Proof.
  apply validateCommand_respaced.
  repeat (constructor; [first [by left | by right]|]). constructor.
Defined.

(** ** Health check *)


(** ** Further edge behaviour *)

(** X27: a limit of zero or less locks the key out: every call is refused
    with [remaining = 0], whatever the store and the clock, and nothing is
    recorded; the bucket is only pruned. *)
Theorem checkRateLimit_no_budget (key : jsstring) (maxRequests windowMs now : Z)
    (store : gmap (list N) (list Z)) :
  (maxRequests ≤ 0)%Z →
  let r := checkRateLimit key maxRequests windowMs now store in
  allowed r.1 = false
  ∧ remaining r.1 = 0%Z
  ∧ bucket r.2 key = prune now windowMs (bucket store key).
Proof.
  intros Hl r.
  destruct (checkRateLimit_full key maxRequests windowMs now store)
    as (Ha & Hr & Hs); [lia|].
  subst r. rewrite Hs, bucket_insert. done.
Qed.

Lemma checkRateLimit_no_budget_witness :
  let r := checkRateLimit (str "ip") 0 60000 5 ∅ in
  allowed r.1 = false
  ∧ remaining r.1 = 0%Z
  ∧ bucket r.2 (str "ip") = prune 5 60000 (bucket ∅ (str "ip")).
Proof. apply checkRateLimit_no_budget. lia. Defined.

Lemma omap_partition_length (l : list entry) :
  (length (omap accepted_name l) + length (omap refused_entry l))%nat = length l.
Proof.
  induction l as [|e l IH]; [done|].
  cbn [omap list_omap]. fold (omap accepted_name l) (omap refused_entry l).
  destruct e as [t|x]; cbn [accepted_name refused_entry].
  - destruct (validatePackageName (VStr t)); simpl; lia.
  - simpl. lia.
Qed.

Lemma first_seen_length (es : list entry) :
  (length (first_seen es) ≤ length es)%nat.
Proof.
  induction es as [|[t|x] es IH]; simpl; [done| |lia].
  pose proof (length_filter (other_than t) (first_seen es)). lia.
Qed.

